(** * News aggregator: aggregation pipeline, cache and in-memory store

    A shallow embedding of [src/services/NewsService.js], [src/models/Article.js],
    [src/models/User.js] and the [DataStore] class, followed by the properties
    of the aggregation pipeline and of the store.

    Conventions of the embedding.
    - A JS string is a [string]; a field that may be [undefined] is an
      [option string]; truthiness of such a field is [truthy].
    - A [Date] is its time value: [Some t] for [t] milliseconds, [None] for
      an Invalid Date (a NaN time value), which is what [new Date(x)] gives
      when [x] is [undefined] or does not parse. A [Date] read from the
      clock is always valid and is a plain [Z].
    - Numbers that the code uses as counts and sizes are integers ([Z]).
    - The process state touched by the service (clock, cache, the stream of
      random ids, the requests sent so far) is a record [World], threaded
      through a state monad [M]. Synchronous code runs at one clock value;
      the clock moves while a request is awaited.
    - The outside world (the two HTTP providers, [Math.random]) is an
      [Oracle]: a reply may depend on every request sent before. *)

From stdpp Require Import gmap strings list pretty sorting.

Set Warnings "-clear-no-such-hyp".

Open Scope Z_scope.

(* ===================================================================== *)
(** ** Articles ([src/models/Article.js]) *)

(** One item of a provider's [articles] array, before normalisation.
    [raw_publishedAt] is the item's [publishedAt] as [new Date] reads it:
    [None] when the field is missing or is not a date string. *)
Record RawArticle := {
  raw_title : option string;
  raw_description : option string;
  raw_url : option string;
  raw_urlToImage : option string;   (* NewsAPI field *)
  raw_image : option string;        (* GNews field *)
  raw_publishedAt : option Z;       (* time value of [new Date(publishedAt)] *)
  raw_source_name : option string;  (* [source?.name] *)
  raw_language : option string;
  raw_content : option string;
  raw_author : option string;
}.

Module Article.
Record t := mk {
  id : string;
  title : option string;
  description : option string;
  url : option string;
  urlToImage : option string;
  publishedAt : option Z;           (* [None]: Invalid Date *)
  source : string;
  category : string;
  language : string;
  content : string;
  author : string;
  createdAt : Z;
}.
End Article.

Abbreviation Article := Article.t (only parsing).

#[global] Instance Article_eq_dec : EqDecision Article.
Proof. solve_decision. Defined.

(** JS truthiness of a possibly absent string: present and not empty. *)
Definition truthy (s : option string) : bool :=
  match s with
  | Some v => negb (String.eqb v "")
  | None => false
  end.

(** [x || d] on strings. *)
Definition or_else (s : option string) (d : string) : string :=
  if truthy s then default d s else d.

(** A destructuring default ([content = '']): used when the field is
    [undefined]. *)
Definition or_default (s : option string) (d : string) : string := default d s.

(* ===================================================================== *)
(** ** Configuration, providers and the process state *)

Record Config := {
  newsApiKey : option string;   (* [process.env.NEWS_API_KEY] *)
  gnewsApiKey : option string;  (* [process.env.GNEWS_API_KEY] *)
  cache_ttl : Z;                (* [config.cache.ttl], seconds *)
}.

(** A request as [axios.get(url, {params})] sends it. *)
Record Request := {
  req_url : string;
  req_credential : string;   (* [apiKey] / [token] *)
  req_subject : string;      (* [category] or [q] *)
  req_language : string;
  req_size : Z;              (* [pageSize] / [max] *)
}.

(** What the awaited request does. [Throws] stands for every way in which
    the [try] block is left through [catch]: network error, timeout,
    non-2xx status, or a body whose [articles] cannot be filtered and
    mapped. [Body None] is a 2xx reply whose [data] or [data.articles] is
    missing. *)
Inductive Outcome :=
  | Throws
  | Body (articles : option (list RawArticle)).

Record Reply := { outcome : Outcome; latency : N }.

Record Oracle := {
  http : list Request → Request → Reply;  (* history of requests, request *)
  random_id : nat → string;               (* the n-th id [generateId] draws *)
}.

Record World := {
  now : Z;                                       (* [Date.now()] *)
  cache : gmap string (list Article * Z);        (* value, expiry instant *)
  drawn : nat;                                   (* ids drawn so far *)
  sent : list Request;                           (* requests sent so far *)
}.

(** The state monad of the service. *)
Definition M (A : Type) : Type := World → A * World.

Definition ret {A} (a : A) : M A := λ w, (a, w).
Definition bind {A B} (c : M A) (k : A → M B) : M B :=
  λ w, let '(a, w') := c w in k a w'.

Notation "'let*' x ':=' c 'in' k" := (bind c (λ x, k))
  (at level 10, x pattern, c at level 100, k at level 200).

Fixpoint mapM {A B} (f : A → M B) (l : list A) : M (list B) :=
  match l with
  | [] => ret []
  | x :: l' =>
      let* y := f x in
      let* ys := mapM f l' in
      ret (y :: ys)
  end.

Definition Date_now : M Z := λ w, (now w, w).

Section Service.

Variable config : Config.
Variable oracle : Oracle.

(** [Article.generateId]: the next random id. *)
Definition generateId : M string := λ w,
  (random_id oracle (drawn w),
   {| now := now w; cache := cache w; drawn := S (drawn w); sent := sent w |}).

(** [await axios.get(url, {...axiosConfig, params})]: the request is
    logged, the clock advances by the time the reply takes. *)
Definition axios_get (r : Request) : M Outcome := λ w,
  let reply := http oracle (sent w) r in
  (outcome reply,
   {| now := now w + Z.of_N (latency reply); cache := cache w;
      drawn := drawn w; sent := sent w ++ [r] |}).

(* --------------------------------------------------------------------- *)
(** *** The cache *)

(** Modelled from the spec: the cache object is an instance of the
    [node-cache] package, which is not part of the sources; only its
    construction [new NodeCache({ stdTTL: config.cache.ttl })] and the calls
    [get] and [set] are. Following the cache layer of the specification, an
    entry carries the expiry instant [insertion time + TTL]; [get] returns
    the value while that instant has not passed and otherwise behaves as
    absent (the expired entry is dropped on access). *)
Definition cache_set (key : string) (value : list Article) : M unit := λ w,
  (tt,
   {| now := now w;
      cache := <[key := (value, now w + cache_ttl config * 1000)]> (cache w);
      drawn := drawn w; sent := sent w |}).

(** Modelled from the spec: [get] of the same cache object; an entry whose
    expiry instant has passed is reported absent and removed. *)
Definition cache_get (key : string) : M (option (list Article)) := λ w,
  match cache w !! key with
  | Some (value, expiry) =>
      if bool_decide (now w ≤ expiry) then (Some value, w)
      else (None,
            {| now := now w; cache := delete key (cache w);
               drawn := drawn w; sent := sent w |})
  | None => (None, w)
  end.

(* --------------------------------------------------------------------- *)
(** *** Article construction *)

(** [new Article({...})]: the id is drawn first, [createdAt] is read last. *)
Definition new_Article (title description url urlToImage : option string)
    (publishedAt : option Z) (source category language : string)
    (content author : option string) : M Article :=
  let* id := generateId in
  let* createdAt := Date_now in
  ret (Article.mk id title description url urlToImage publishedAt source
         category language (or_default content "") (or_default author "")
         createdAt).

Definition fromNewsAPI (category : string) (article : RawArticle) : M Article :=
  new_Article (raw_title article) (raw_description article) (raw_url article)
    (raw_urlToImage article) (raw_publishedAt article)
    (or_else (raw_source_name article) "Unknown") category "en"
    (raw_content article) (raw_author article).

Definition fromGNews (category : string) (article : RawArticle) : M Article :=
  new_Article (raw_title article) (raw_description article) (raw_url article)
    (raw_image article) (raw_publishedAt article)
    (or_else (raw_source_name article) "Unknown") category
    (or_else (raw_language article) "en")
    (raw_content article) (Some "").

(** [article => article.title && article.url] *)
Definition has_title_and_url (article : RawArticle) : bool :=
  truthy (raw_title article) && truthy (raw_url article).

(* --------------------------------------------------------------------- *)
(** *** Provider adapters: category-based fetch *)

Definition newsApi_base : string := "https://newsapi.org/v2".
Definition gnews_base : string := "https://gnews.io/api/v4".

(** The template literal of the cache key and the request of one category. *)
Definition category_key (prefix category language : string) (pageSize : Z)
    : string :=
  prefix +:+ category +:+ "_" +:+ language +:+ "_" +:+ pretty pageSize.

Definition headlines_request (endpoint credential category language : string)
    (pageSize : Z) : Request :=
  {| req_url := endpoint; req_credential := credential;
     req_subject := category; req_language := language;
     req_size := Z.min pageSize 100 |}.

(** The body of [for (const category of categories) { ... }] inside the
    [try] block of [fetchFromNewsAPI] and [fetchFromGNews]; the two
    functions differ in the cache-key prefix, the credential, the endpoint
    and the mapping function. The result is [None] when the block is left by
    an exception, [Some articles] when the loop runs to its end. *)
Fixpoint fetch_loop (prefix credential endpoint : string)
    (convert : string → RawArticle → M Article)
    (categories : list string) (language : string) (pageSize : Z)
    (articles : list Article) : M (option (list Article)) :=
  match categories with
  | [] => ret (Some articles)
  | category :: rest =>
      let cacheKey := category_key prefix category language pageSize in
      let* cachedArticles := cache_get cacheKey in
      match cachedArticles with
      | Some cached =>
          fetch_loop prefix credential endpoint convert rest language pageSize
            (articles ++ cached)
      | None =>
          let* response :=
            axios_get
              (headlines_request endpoint credential category language
                 pageSize) in
          match response with
          | Throws => ret None
          | Body None =>
              fetch_loop prefix credential endpoint convert rest language
                pageSize articles
          | Body (Some raw) =>
              let* formattedArticles :=
                mapM (convert category) (filter has_title_and_url raw) in
              let* _ := cache_set cacheKey formattedArticles in
              fetch_loop prefix credential endpoint convert rest language
                pageSize (articles ++ formattedArticles)
          end
      end
  end.

(** The function around the loop: no key, no request; an exception
    anywhere in the loop is caught and the result is the empty list. *)
Definition fetch_by_category (prefix : string) (key : option string)
    (endpoint : string) (convert : string → RawArticle → M Article)
    (categories : list string) (language : string) (pageSize : Z)
    : M (list Article) :=
  if truthy key then
    let* result :=
      fetch_loop prefix (default "" key) endpoint convert categories language
        pageSize [] in
    match result with
    | Some articles => ret articles
    | None => ret []
    end
  else ret [].

Definition fetchFromNewsAPI : list string → string → Z → M (list Article) :=
  fetch_by_category "newsapi_" (newsApiKey config)
    (newsApi_base +:+ "/top-headlines") fromNewsAPI.

Definition fetchFromGNews : list string → string → Z → M (list Article) :=
  fetch_by_category "gnews_" (gnewsApiKey config)
    (gnews_base +:+ "/top-headlines") fromGNews.

(* --------------------------------------------------------------------- *)
(** *** Search *)

(** One [try { ... } catch { }] block of [searchNews]: the articles the
    block pushes. *)
Definition search_provider (endpoint credential : string)
    (convert : string → RawArticle → M Article)
    (keyword language : string) (size : Z) : M (list Article) :=
  let* response :=
    axios_get {| req_url := endpoint; req_credential := credential;
                 req_subject := keyword; req_language := language;
                 req_size := size |} in
  match response with
  | Throws => ret []
  | Body None => ret []
  | Body (Some raw) => mapM (convert "search") (filter has_title_and_url raw)
  end.

Definition search_key (keyword language : string) (pageSize : Z) : string :=
  "search_" +:+ keyword +:+ "_" +:+ language +:+ "_" +:+ pretty pageSize.

Definition searchNews (keyword language : string) (pageSize : Z)
    : M (list Article) :=
  let cacheKey := search_key keyword language pageSize in
  let* cachedResults := cache_get cacheKey in
  match cachedResults with
  | Some cached => ret cached
  | None =>
      let* fromA :=
        if truthy (newsApiKey config) then
          search_provider (newsApi_base +:+ "/everything")
            (default "" (newsApiKey config)) fromNewsAPI keyword language
            (Z.min pageSize 100)
        else ret [] in
      let articles := fromA in
      let* fromB :=
        if truthy (gnewsApiKey config)
           && bool_decide (Z.of_nat (length articles) < pageSize) then
          search_provider (gnews_base +:+ "/search")
            (default "" (gnewsApiKey config)) fromGNews keyword language
            (Z.min (pageSize - Z.of_nat (length articles)) 100)
        else ret [] in
      let articles := articles ++ fromB in
      let* _ := cache_set cacheKey articles in
      ret articles
  end.

(* --------------------------------------------------------------------- *)
(** *** Deduplication, sorting, truncation *)

(** [articles.filter(article => { if (seen.has(article.url)) return false;
    seen.add(article.url); return true; })] with the set [seen] as it
    stands when the filter reaches [articles]. *)
Fixpoint dedup_from (seen : gset (option string)) (articles : list Article)
    : list Article :=
  match articles with
  | [] => []
  | article :: rest =>
      if bool_decide (Article.url article ∈ seen) then dedup_from seen rest
      else article :: dedup_from ({[Article.url article]} ∪ seen) rest
  end.

Definition removeDuplicates (articles : list Article) : list Article :=
  dedup_from ∅ articles.

(** [Array.prototype.sort(compare)]. A comparator returns a number,
    [None] standing for NaN, which the sort reads as [+0]. The sort is
    stable, and for a consistent comparator its result is the one ordered
    arrangement that keeps equal elements in input order; a stable
    insertion sort computes it. For a comparator that is not consistent
    (one that returns NaN on some pairs only) the language leaves the
    order to the implementation: the insertion sort then gives one
    arrangement of the same elements, and nothing is proved of its
    order. *)
Fixpoint insert_by {A} (compare : A → A → option Z) (x : A) (l : list A)
    : list A :=
  match l with
  | [] => [x]
  | y :: l' =>
      if bool_decide (default 0 (compare x y) ≤ 0) then x :: y :: l'
      else y :: insert_by compare x l'
  end.

Definition Array_sort {A} (compare : A → A → option Z) (l : list A)
    : list A :=
  foldr (insert_by compare) [] l.

(** [(a, b) => new Date(b.publishedAt) - new Date(a.publishedAt)]: NaN as
    soon as one of the two dates is invalid. *)
Definition newest_first (a b : Article) : option Z :=
  match Article.publishedAt b, Article.publishedAt a with
  | Some tb, Some ta => Some (tb - ta)
  | _, _ => None
  end.

(** [array.slice(0, limit)]: a negative [limit] counts from the end. *)
Definition slice0 {A} (l : list A) (limit : Z) : list A :=
  let len := Z.of_nat (length l) in
  let final := if bool_decide (limit < 0) then Z.max (len + limit) 0
               else Z.min limit len in
  take (Z.to_nat final) l.

(** [Math.ceil(limit / 2)] *)
Definition ceil_half (limit : Z) : Z := (limit + 1) `div` 2.

(* --------------------------------------------------------------------- *)
(** *** The synthetic articles and the personalised feed *)

Definition mock_raw (title description url urlToImage : string)
    (publishedAt : Z) (source author content : string) : RawArticle :=
  {| raw_title := Some title; raw_description := Some description;
     raw_url := Some url; raw_urlToImage := Some urlToImage;
     raw_image := None; raw_publishedAt := Some publishedAt;
     raw_source_name := Some source; raw_language := None;
     raw_content := Some content; raw_author := Some author |}.

(** The array literal [baseArticles], built at clock value [t]; each
    [publishedAt] is the ISO string of a valid date, which parses back to
    the same time value. *)
Definition baseArticles (t : Z) : list RawArticle :=
  [ mock_raw "Breaking: Technology Advances in 2024"
      "Latest technological innovations are reshaping the industry with AI and machine learning"
      "https://example.com/tech-news-1"
      "https://via.placeholder.com/400x200/0066CC/FFFFFF?text=Tech+News"
      t "Tech Daily" "John Doe"
      "Artificial intelligence and machine learning continue to transform industries...";
    mock_raw "Global Business Trends Show Positive Growth"
      "Economic indicators show positive growth across multiple sectors worldwide"
      "https://example.com/business-news-1"
      "https://via.placeholder.com/400x200/00AA00/FFFFFF?text=Business+News"
      (t - 3600000) "Business Weekly" "Jane Smith"
      "Markets are showing resilience as global trade continues to expand...";
    mock_raw "Sports Championship Finals Draw Record Viewers"
      "This year's championship has broken all previous viewership records"
      "https://example.com/sports-news-1"
      "https://via.placeholder.com/400x200/FF6600/FFFFFF?text=Sports+News"
      (t - 7200000) "Sports Central" "Mike Johnson"
      "The championship finals have captivated audiences worldwide...";
    mock_raw "Health Research Breakthrough in Disease Treatment"
      "Scientists announce major breakthrough in treatment of chronic diseases"
      "https://example.com/health-news-1"
      "https://via.placeholder.com/400x200/CC0066/FFFFFF?text=Health+News"
      (t - 10800000) "Medical Journal" "Dr. Sarah Wilson"
      "Researchers have made significant progress in understanding...";
    mock_raw "Entertainment Industry Embraces New Digital Platforms"
      "Streaming services and digital content creation reach new heights"
      "https://example.com/entertainment-news-1"
      "https://via.placeholder.com/400x200/9933CC/FFFFFF?text=Entertainment"
      (t - 14400000) "Entertainment Today" "Lisa Chen"
      "The entertainment landscape continues to evolve with digital innovation..." ].

Definition getMockArticles (categories : list string) : M (list Article) :=
  let* t := Date_now in
  let relevantArticles :=
    if bool_decide ("general" ∈ categories) then baseArticles t
    else take 3 (baseArticles t) in
  mapM (fromNewsAPI (or_else (head categories) "general")) relevantArticles.

(** The steps of [getPersonalizedNews] after the merged list is complete. *)
Definition finish (allArticles : list Article) (limit : Z) : list Article :=
  let uniqueArticles := removeDuplicates allArticles in
  slice0 (Array_sort newest_first uniqueArticles) limit.

(** [getPersonalizedNews]. The two fetches of [Promise.all] read and write
    disjoint cache keys; they are run one after the other. With list-typed
    arguments nothing in the [try] block throws, so the [catch] branch is
    not reached. *)
Definition getPersonalizedNews (preferences : list string) (language : string)
    (limit : Z) : M (list Article) :=
  let* newsApiArticles :=
    fetchFromNewsAPI preferences language (ceil_half limit) in
  let* gnewsArticles :=
    fetchFromGNews preferences language (ceil_half limit) in
  let allArticles := newsApiArticles ++ gnewsArticles in
  let* allArticles :=
    if bool_decide (length allArticles = 0%nat) then
      let* mockArticles := getMockArticles preferences in
      ret (allArticles ++ mockArticles)
    else ret allArticles in
  ret (finish allArticles limit).

End Service.

(* ===================================================================== *)
(** ** Users and the in-memory store ([src/models/User.js], [DataStore]) *)

(** A JS [Set] of strings: its elements in insertion order. *)
Definition Set_add (x : string) (s : list string) : list string :=
  if bool_decide (x ∈ s) then s else s ++ [x].

Definition Set_delete (x : string) (s : list string) : list string :=
  filter (λ y, y ≠ x) s.

Module User.
Record t := mk {
  id : string;
  name : string;
  email : string;
  password : string;
  preferences : list string;
  readArticles : list string;
  favoriteArticles : list string;
  createdAt : Z;
  updatedAt : Z;
}.

(** The three mutators; [t_now] is what [new Date()] reads. *)
Definition markAsRead (articleId : string) (t_now : Z) (u : t) : t :=
  mk (id u) (name u) (email u) (password u) (preferences u)
     (Set_add articleId (readArticles u)) (favoriteArticles u)
     (createdAt u) t_now.

Definition markAsFavorite (articleId : string) (t_now : Z) (u : t) : t :=
  mk (id u) (name u) (email u) (password u) (preferences u)
     (readArticles u) (Set_add articleId (favoriteArticles u))
     (createdAt u) t_now.

Definition removeFavorite (articleId : string) (t_now : Z) (u : t) : t :=
  mk (id u) (name u) (email u) (password u) (preferences u)
     (readArticles u) (Set_delete articleId (favoriteArticles u))
     (createdAt u) t_now.

(** [this.updatedAt = new Date()] alone. *)
Definition touch (t_now : Z) (u : t) : t :=
  mk (id u) (name u) (email u) (password u) (preferences u)
     (readArticles u) (favoriteArticles u) (createdAt u) t_now.

(** [new User({ name, email, password, preferences })]; [id] is what
    [User.generateId] draws, [t_now] what the two [new Date()] read. *)
Definition new (id name email password : string) (preferences : list string)
    (t_now : Z) : t :=
  mk id name email password preferences [] [] t_now t_now.

Definition updatePreferences (newPreferences : list string) (t_now : Z)
    (u : t) : t :=
  mk (id u) (name u) (email u) (password u) newPreferences
     (readArticles u) (favoriteArticles u) (createdAt u) t_now.

Definition isArticleRead (u : t) (articleId : string) : bool :=
  bool_decide (articleId ∈ readArticles u).

Definition isArticleFavorite (u : t) (articleId : string) : bool :=
  bool_decide (articleId ∈ favoriteArticles u).
End User.

Abbreviation User := User.t (only parsing).

Module DataStore.

(** [users] is a JS [Map] from email to user: its entries in insertion
    order, which is the order [users.values()] iterates in. [articles] is
    a [Map] from id to article, only ever looked up by key here. *)
Record t := mk {
  users : list (string * User);
  articles : gmap string Article;
}.

(** The position of the first user whose id is [id]: the object the
    [for ... of] loop of [getUserById] returns. *)
Fixpoint position_by_id (id : string) (us : list (string * User))
    : option nat :=
  match us with
  | [] => None
  | (_, user) :: rest =>
      if bool_decide (User.id user = id) then Some 0%nat
      else S <$> position_by_id id rest
  end.

Definition getUserById (s : t) (id : string) : option User :=
  i ← position_by_id id (users s);
  snd <$> users s !! i.

(** A mutating method called on the object [getUserById] returned:
    the entry at that position is updated in place. *)
Definition mutate_user (f : User → User) (s : t) (id : string) : t :=
  match position_by_id id (users s) with
  | Some i =>
      mk (alter (λ entry, (fst entry, f (snd entry))) i (users s))
         (articles s)
  | None => s
  end.

Definition storeArticle (s : t) (article : Article) : t :=
  mk (users s) (<[Article.id article := article]> (articles s)).

Definition getArticle (s : t) (id : string) : option Article :=
  articles s !! id.

(** [array.filter(Boolean)] on an array of articles and [undefined]. *)
Definition filter_Boolean (l : list (option Article)) : list Article :=
  omap (λ x, x) l.

Definition getUserReadArticles (s : t) (userId : string) : list Article :=
  match getUserById s userId with
  | None => []
  | Some user => filter_Boolean (getArticle s <$> User.readArticles user)
  end.

Definition getUserFavoriteArticles (s : t) (userId : string) : list Article :=
  match getUserById s userId with
  | None => []
  | Some user => filter_Boolean (getArticle s <$> User.favoriteArticles user)
  end.

Definition markArticleAsRead (s : t) (userId articleId : string) (t_now : Z)
    : bool * t :=
  match getUserById s userId with
  | Some _ => (true, mutate_user (User.markAsRead articleId t_now) s userId)
  | None => (false, s)
  end.

Definition markArticleAsFavorite (s : t) (userId articleId : string)
    (t_now : Z) : bool * t :=
  match getUserById s userId with
  | Some _ =>
      (true, mutate_user (User.markAsFavorite articleId t_now) s userId)
  | None => (false, s)
  end.

Definition removeFavoriteArticle (s : t) (userId articleId : string)
    (t_now : Z) : bool * t :=
  match getUserById s userId with
  | Some _ =>
      (true, mutate_user (User.removeFavorite articleId t_now) s userId)
  | None => (false, s)
  end.

(** [Map.prototype.set] and [get] on the entries of a [Map] in insertion
    order: a key that is present keeps its place, a new key goes last. *)
Fixpoint Map_set {V} (key : string) (value : V) (entries : list (string * V))
    : list (string * V) :=
  match entries with
  | [] => [(key, value)]
  | (k, v) :: rest =>
      if bool_decide (k = key) then (key, value) :: rest
      else (k, v) :: Map_set key value rest
  end.

Fixpoint Map_get {V} (key : string) (entries : list (string * V)) : option V :=
  match entries with
  | [] => None
  | (k, v) :: rest => if bool_decide (k = key) then Some v else Map_get key rest
  end.

(** [createUser(userData)]: the user is stored under its email. *)
Definition createUser (s : t) (id name email password : string)
    (preferences : list string) (t_now : Z) : User * t :=
  let user := User.new id name email password preferences t_now in
  (user, mk (Map_set (User.email user) user (users s)) (articles s)).

Definition getUserByEmail (s : t) (email : string) : option User :=
  Map_get email (users s).

Definition userExists (s : t) (email : string) : bool :=
  bool_decide (is_Some (Map_get email (users s))).

(** [articlesArray.map(article => this.storeArticle(article))]: the
    stored articles and the store after the last of them. *)
Definition storeArticles (s : t) (articlesArray : list Article)
    : list Article * t :=
  (articlesArray, foldl storeArticle s articlesArray).

End DataStore.

(* ===================================================================== *)
(** ** Auxiliary definitions used to state the properties *)

(** The article's [publishedAt] is a valid date. *)
Definition dated (a : Article.t) : Prop := is_Some (Article.publishedAt a).

(** Both dates are valid and [b] was not published after [a]. *)
Definition at_least_as_new (a b : Article.t) : Prop :=
  ∃ ta tb, Article.publishedAt a = Some ta ∧ Article.publishedAt b = Some tb ∧
           tb ≤ ta.

(** The world after [n] more ids were drawn. *)
Definition after_draws (n : nat) (w : World) : World :=
  {| now := now w; cache := cache w; drawn := (drawn w + n)%nat;
     sent := sent w |}.

(** The article [Article.fromNewsAPI] builds, given the id it draws and
    the clock value it reads. *)
Definition newsapi_article (category id : string) (t : Z) (r : RawArticle)
    : Article.t :=
  Article.mk id (raw_title r) (raw_description r) (raw_url r)
    (raw_urlToImage r) (raw_publishedAt r)
    (or_else (raw_source_name r) "Unknown") category "en"
    (or_default (raw_content r) "") (or_default (raw_author r) "") t.

Definition gnews_article (category id : string) (t : Z) (r : RawArticle)
    : Article.t :=
  Article.mk id (raw_title r) (raw_description r) (raw_url r)
    (raw_image r) (raw_publishedAt r)
    (or_else (raw_source_name r) "Unknown") category
    (or_else (raw_language r) "en")
    (or_default (raw_content r) "") "" t.

(** What of a synthetic article does not come from the clock or from the
    id generator. *)
Definition fixed_part (a : Article.t) :=
  (Article.title a, Article.description a, Article.url a, Article.urlToImage a,
   Article.source a, Article.category a, Article.language a,
   Article.content a, Article.author a).

(** The articles of [baseArticles] the generator uses. *)
Definition relevant (categories : list string) (t : Z) : list RawArticle :=
  if bool_decide ("general" ∈ categories) then baseArticles t
  else take 3 (baseArticles t).

(** The request a search block sends. *)
Definition search_request (endpoint credential keyword language : string)
    (size : Z) : Request :=
  {| req_url := endpoint; req_credential := credential;
     req_subject := keyword; req_language := language; req_size := size |}.

(** The number of articles a search block pushes for a reply: the items
    with a title and a URL of a 2xx reply that carries an [articles]
    array, and none when the request fails or the array is missing. *)
Definition delivered (o : Outcome) : nat :=
  match o with
  | Body (Some raw) => length (filter has_title_and_url raw)
  | _ => 0%nat
  end.

Inductive Provider := NewsAPI | GNews.

Section Views.

Variable config : Config.
Variable oracle : Oracle.

(** The list [getPersonalizedNews] deduplicates, sorts and truncates: the
    NewsAPI articles followed by the GNews articles, or the synthetic
    articles when both are empty. *)
Definition merged_articles (preferences : list string) (language : string)
    (limit : Z) : M (list Article.t) :=
  let* newsApiArticles :=
    fetchFromNewsAPI config oracle preferences language (ceil_half limit) in
  let* gnewsArticles :=
    fetchFromGNews config oracle preferences language (ceil_half limit) in
  match newsApiArticles ++ gnewsArticles with
  | [] => getMockArticles oracle preferences
  | merged => ret merged
  end.

Definition provider_key (p : Provider) : option string :=
  match p with NewsAPI => newsApiKey config | GNews => gnewsApiKey config end.

Definition provider_prefix (p : Provider) : string :=
  match p with NewsAPI => "newsapi_" | GNews => "gnews_" end.

Definition provider_headlines (p : Provider) : string :=
  match p with
  | NewsAPI => newsApi_base +:+ "/top-headlines"
  | GNews => gnews_base +:+ "/top-headlines"
  end.

(** [fetchFromNewsAPI] or [fetchFromGNews]. *)
Definition fetch_from (p : Provider)
    : list string → string → Z → M (list Article.t) :=
  match p with
  | NewsAPI => fetchFromNewsAPI config oracle
  | GNews => fetchFromGNews config oracle
  end.

(** The loop inside it. *)
Definition loop_of (p : Provider)
    : list string → string → Z → list Article.t → M (option (list Article.t)) :=
  fetch_loop config oracle (provider_prefix p) (default "" (provider_key p))
    (provider_headlines p)
    (match p with
     | NewsAPI => fromNewsAPI oracle
     | GNews => fromGNews oracle
     end).

Definition request_of (p : Provider) (category language : string)
    (pageSize : Z) : Request :=
  headlines_request (provider_headlines p) (default "" (provider_key p))
    category language pageSize.

(** The two requests of a search. *)
Definition everything_request (keyword language : string) (pageSize : Z)
    : Request :=
  search_request (newsApi_base +:+ "/everything")
    (default "" (newsApiKey config)) keyword language (Z.min pageSize 100).

Definition gnews_search_request (keyword language : string) (size : Z)
    : Request :=
  search_request (gnews_base +:+ "/search")
    (default "" (gnewsApiKey config)) keyword language (Z.min size 100).

End Views.

(** The number of different URLs among the articles of a list. *)
Definition distinct_urls (l : list Article.t) : nat :=
  size (list_to_set (Article.url <$> l) : gset (option string)).

(** The list stored under a cache key; the key holds a live entry. *)
Definition cached_articles (w : World) (key : string) : list Article.t :=
  match cache w !! key with
  | Some (value, _) => value
  | None => []
  end.

Definition live (w : World) (key : string) : Prop :=
  ∃ value expiry, cache w !! key = Some (value, expiry) ∧ now w ≤ expiry.

(** An article with a title and a URL, and a cache that holds only such. *)
Definition complete (a : Article.t) : Prop :=
  truthy (Article.title a) = true ∧ truthy (Article.url a) = true.

Definition cache_complete (w : World) : Prop :=
  ∀ key value expiry,
    cache w !! key = Some (value, expiry) → Forall complete value.

(* --------------------------------------------------------------------- *)
(** *** The news controller ([NewsController]) and the response helpers *)

(** [array.slice(start, end)]; negative indices count from the end. *)
Definition Array_slice {A} (l : list A) (start finish : Z) : list A :=
  let len := Z.of_nat (length l) in
  let k := if bool_decide (start < 0) then Z.max (len + start) 0
           else Z.min start len in
  let final := if bool_decide (finish < 0) then Z.max (len + finish) 0
               else Z.min finish len in
  take (Z.to_nat (Z.max (final - k) 0)) (drop (Z.to_nat k) l).

(** [Math.ceil(a / b)] on integers, [b] not zero. *)
Definition ceil_div (a b : Z) : Z := - ((- a) `div` b).

(** The [pagination] object of [createPaginatedResponse]. *)
Record Pagination := {
  pg_page : Z;
  pg_limit : Z;
  pg_total : Z;
  pg_totalPages : Z;
  pg_hasNext : bool;
  pg_hasPrev : bool;
}.

Definition pagination_meta (page limit total : Z) : Pagination :=
  {| pg_page := page; pg_limit := limit; pg_total := total;
     pg_totalPages := ceil_div total limit;
     pg_hasNext := bool_decide (page < ceil_div total limit);
     pg_hasPrev := bool_decide (page > 1) |}.

(** The three lines every listing handler repeats: [startIndex],
    [endIndex] and the [slice]. *)
Definition page_slice {A} (l : list A) (pageNumber limitNumber : Z) : list A :=
  let startIndex := (pageNumber - 1) * limitNumber in
  let endIndex := startIndex + limitNumber in
  Array_slice l startIndex endIndex.

(** What a handler puts into [data], [errors] and [meta]. *)
Inductive Payload :=
  | ErrorText (errors : string)
  | ErrorList (errors : list string)
  | MarkedAt (articleId : string) (title : option string) (markedAt : Z)
  | RemovedAt (articleId : string) (title : option string) (removedAt : Z)
  | NewsPage (news : list (Article.t * bool * bool)) (pagination : Pagination)
  | ArticlesPage (articles : list Article.t) (pagination : Pagination).

(** [res.status(status).json({ success, message, timestamp, ... })] *)
Record Response := {
  status : Z;
  success : bool;
  message : string;
  timestamp : Z;
  payload : Payload;
}.

Definition createResponse (status : Z) (message : string) (data : Payload)
    (t_now : Z) : Response :=
  {| status := status; success := true; message := message;
     timestamp := t_now; payload := data |}.

Definition createErrorResponse (status : Z) (message : string)
    (errors : Payload) (t_now : Z) : Response :=
  {| status := status; success := false; message := message;
     timestamp := t_now; payload := errors |}.

Module NewsController.

(** The handlers take what they read from the request: the validation
    errors [validationResult(req)] found, [req.user.userId], the route and
    query parameters after [parseInt]; [t_now] is the clock. They return
    the response and the store they leave. *)
Definition markAsRead (s : DataStore.t) (errors : list string)
    (userId id : string) (t_now : Z) : Response * DataStore.t :=
  if bool_decide (errors ≠ []) then
    (createErrorResponse 400 "Validation failed" (ErrorList errors) t_now, s)
  else
    match DataStore.getArticle s id with
    | None =>
        (createErrorResponse 404 "Article not found"
           (ErrorText "The requested article was not found") t_now, s)
    | Some article =>
        let '(ok, s') := DataStore.markArticleAsRead s userId id t_now in
        if negb ok then
          (createErrorResponse 404 "User not found"
             (ErrorText "User not found in the system") t_now, s')
        else
          (createResponse 200 "Article marked as read"
             (MarkedAt id (Article.title article) t_now) t_now, s')
    end.

Definition markAsFavorite (s : DataStore.t) (errors : list string)
    (userId id : string) (t_now : Z) : Response * DataStore.t :=
  if bool_decide (errors ≠ []) then
    (createErrorResponse 400 "Validation failed" (ErrorList errors) t_now, s)
  else
    match DataStore.getArticle s id with
    | None =>
        (createErrorResponse 404 "Article not found"
           (ErrorText "The requested article was not found") t_now, s)
    | Some article =>
        let '(ok, s') := DataStore.markArticleAsFavorite s userId id t_now in
        if negb ok then
          (createErrorResponse 404 "User not found"
             (ErrorText "User not found in the system") t_now, s')
        else
          (createResponse 200 "Article marked as favorite"
             (MarkedAt id (Article.title article) t_now) t_now, s')
    end.

Definition removeFavorite (s : DataStore.t) (errors : list string)
    (userId id : string) (t_now : Z) : Response * DataStore.t :=
  if bool_decide (errors ≠ []) then
    (createErrorResponse 400 "Validation failed" (ErrorList errors) t_now, s)
  else
    match DataStore.getArticle s id with
    | None =>
        (createErrorResponse 404 "Article not found"
           (ErrorText "The requested article was not found") t_now, s)
    | Some article =>
        let '(ok, s') := DataStore.removeFavoriteArticle s userId id t_now in
        if negb ok then
          (createErrorResponse 404 "User not found"
             (ErrorText "User not found in the system") t_now, s')
        else
          (createResponse 200 "Article removed from favorites"
             (RemovedAt id (Article.title article) t_now) t_now, s')
    end.

Definition getReadArticles (s : DataStore.t) (userId : string)
    (pageNumber limitNumber : Z) (t_now : Z) : Response :=
  let readArticles := DataStore.getUserReadArticles s userId in
  let paginatedArticles := page_slice readArticles pageNumber limitNumber in
  createResponse 200 "Read articles retrieved successfully"
    (ArticlesPage paginatedArticles
       (pagination_meta pageNumber limitNumber
          (Z.of_nat (length readArticles)))) t_now.

Definition getFavoriteArticles (s : DataStore.t) (userId : string)
    (pageNumber limitNumber : Z) (t_now : Z) : Response :=
  let favoriteArticles := DataStore.getUserFavoriteArticles s userId in
  let paginatedArticles := page_slice favoriteArticles pageNumber limitNumber in
  createResponse 200 "Favorite articles retrieved successfully"
    (ArticlesPage paginatedArticles
       (pagination_meta pageNumber limitNumber
          (Z.of_nat (length favoriteArticles)))) t_now.

(** [getNews]: [category] is the query parameter, absent or a string. *)
Definition getNews (config : Config) (oracle : Oracle) (s : DataStore.t)
    (userId : string) (pageNumber limitNumber : Z) (category : option string)
    : M (Response * DataStore.t) :=
  match DataStore.getUserById s userId with
  | None =>
      let* t_now := Date_now in
      ret (createErrorResponse 404 "User not found"
             (ErrorText "User not found in the system") t_now, s)
  | Some user =>
      let preferences :=
        if bool_decide (0 < length (User.preferences user))%nat
        then User.preferences user else ["general"] in
      let preferences :=
        if truthy category then [default "" category] else preferences in
      let* articles :=
        getPersonalizedNews config oracle preferences "en"
          (limitNumber * 2) in
      let s' :=
        if bool_decide (0 < length articles)%nat
        then (DataStore.storeArticles s articles).2 else s in
      let enrichedArticles :=
        (λ article,
           (article, User.isArticleRead user (Article.id article),
            User.isArticleFavorite user (Article.id article)))
          <$> articles in
      let paginatedArticles :=
        page_slice enrichedArticles pageNumber limitNumber in
      let* t_now := Date_now in
      ret (createResponse 200 "News retrieved successfully"
             (NewsPage paginatedArticles
                (pagination_meta pageNumber limitNumber
                   (Z.of_nat (length enrichedArticles)))) t_now, s')
  end.

End NewsController.

(** The category list [getNews] hands to the news service: the [category]
    parameter alone if it is given, else the user's preferences, else
    [general]. *)
Definition requested_preferences (user : User.t) (category : option string)
    : list string :=
  if truthy category then [default "" category]
  else if bool_decide (0 < length (User.preferences user))%nat
       then User.preferences user else ["general"].

(** [AuthService.extractTokenFromHeader]; the header is absent or a
    string; [null] is [None]. *)
Definition extractTokenFromHeader (authHeader : option string)
    : option string :=
  match authHeader with
  | None => None
  | Some header =>
      if negb (truthy authHeader) || negb (String.prefix "Bearer " header)
      then None
      else Some (String.substring 7 (String.length header - 7) header)
  end.

(** A store as the operations keep it: emails are the keys, no key twice,
    and the read and favourite sets hold no id twice. *)
Definition store_ok (s : DataStore.t) : Prop :=
  NoDup (fst <$> DataStore.users s) ∧
  ∀ email u, (email, u) ∈ DataStore.users s →
    User.email u = email ∧
    NoDup (User.readArticles u) ∧ NoDup (User.favoriteArticles u).

(** Concrete configurations, providers, worlds and stores. *)

(** An article that carries nothing but an id and a URL. *)
Definition bare (id : string) (url : option string) : Article.t :=
  Article.mk id None None url None (Some 0) "" "" "" "" "" 0.

Definition no_keys : Config :=
  {| newsApiKey := None; gnewsApiKey := None; cache_ttl := 3600 |}.

(** Providers that fail every request; ids [_0], [_1], ... *)
Definition unreachable : Oracle :=
  {| http := λ _ _, {| outcome := Throws; latency := 0 |};
     random_id := λ n, "_" +:+ pretty n |}.

Definition fresh (t : Z) : World :=
  {| now := t; cache := ∅; drawn := 0; sent := [] |}.

Definition story (title url : string) (publishedAt : Z) : RawArticle :=
  {| raw_title := Some title; raw_description := None; raw_url := Some url;
     raw_urlToImage := None; raw_image := None;
     raw_publishedAt := Some publishedAt;
     raw_source_name := None; raw_language := None; raw_content := None;
     raw_author := None |}.

(** A story whose [publishedAt] is missing. *)
Definition undated (title url : string) : RawArticle :=
  {| raw_title := Some title; raw_description := None; raw_url := Some url;
     raw_urlToImage := None; raw_image := None; raw_publishedAt := None;
     raw_source_name := None; raw_language := None; raw_content := None;
     raw_author := None |}.

Definition both_keys : Config :=
  {| newsApiKey := Some "key-a"; gnewsApiKey := Some "key-b";
     cache_ttl := 3600 |}.

Definition newsapi_only : Config :=
  {| newsApiKey := Some "key-a"; gnewsApiKey := None; cache_ttl := 3600 |}.

(** Both providers answer every request with the same single story. *)
Definition wire : Oracle :=
  {| http := λ _ _,
       {| outcome := Body (Some [story "Launch" "https://x.com/a" 1000]);
          latency := 120 |};
     random_id := λ n, "_" +:+ pretty n |}.

(** A provider whose second story of three carries no date. *)
Definition misdated : Oracle :=
  {| http := λ _ _,
       {| outcome := Body (Some [story "Early" "https://x.com/early" 1000;
                                 undated "Lost" "https://x.com/lost";
                                 story "Late" "https://x.com/late" 3000]);
          latency := 120 |};
     random_id := λ n, "_" +:+ pretty n |}.

(** A provider that lists the older of its two stories first. *)
Definition timely : Oracle :=
  {| http := λ _ _,
       {| outcome := Body (Some [story "Early" "https://x.com/early" 1000;
                                 story "Late" "https://x.com/late" 3000]);
          latency := 120 |};
     random_id := λ n, "_" +:+ pretty n |}.

(** A provider that answers for [sports] and fails for everything else. *)
Definition flaky : Oracle :=
  {| http := λ _ r,
       {| outcome :=
            if String.eqb (req_subject r) "sports"
            then Body (Some [story "Final" "https://x.com/final" 1000])
            else Throws;
          latency := 120 |};
     random_id := λ n, "_" +:+ pretty n |}.

(** A world whose cache holds a live list for [sports] from NewsAPI. *)
Definition warm : World :=
  {| now := 500;
     cache := {[ "newsapi_sports_en_10"
                 := ([bare "_a1" (Some "https://x.com/a")], 9000) ]};
     drawn := 1; sent := [] |}.

Definition reader : User.t :=
  User.mk "_u1" "Ada" "ada@example.com" "hash" ["technology"] ["_a1"; "_a9"]
    ["_a1"] 0 0.

Definition small_store : DataStore.t :=
  DataStore.mk [("ada@example.com", reader)]
    {["_a1" := bare "_a1" (Some "https://x.com/a")]}.

(* ===================================================================== *)
(** ** Properties of the store *)

Section StoreFacts.
Import DataStore.

Lemma position_by_id_lookup id us i :
  position_by_id id us = Some i →
  ∃ entry, us !! i = Some entry ∧ User.id (snd entry) = id.
Proof.
  revert i. induction us as [|[e u] us IH]; intros i; simpl; [done|].
  case_bool_decide as Hid.
  - intros [= <-]. by exists (e, u).
  - destruct (position_by_id id us) as [j|] eqn:Hj; simpl; [|done].
    intros [= <-]. destruct (IH j eq_refl) as (entry & ? & ?). by exists entry.
Qed.

Lemma position_by_id_first id us i :
  position_by_id id us = Some i →
  ∀ j entry, (j < i)%nat → us !! j = Some entry → User.id (snd entry) ≠ id.
Proof.
  revert i. induction us as [|[e u] us IH]; intros i; simpl; [done|].
  case_bool_decide as Hid.
  - intros [= <-] j entry Hj. lia.
  - destruct (position_by_id id us) as [k|] eqn:Hk; simpl; [|done].
    intros [= <-] [|j] entry Hj; simpl.
    + by intros [= <-].
    + apply (IH k eq_refl). lia.
Qed.

Lemma getUserById_Some s id u :
  getUserById s id = Some u →
  ∃ i e, position_by_id id (users s) = Some i ∧ users s !! i = Some (e, u).
Proof.
  unfold getUserById. destruct (position_by_id id (users s)) as [i|]; [|done].
  simpl. destruct (users s !! i) as [[e u']|] eqn:Hi; simpl; [|done].
  intros [= <-]. by exists i, e.
Qed.

Lemma getUserById_None s id :
  getUserById s id = None ↔ position_by_id id (users s) = None.
Proof.
  unfold getUserById. split.
  - destruct (position_by_id id (users s)) as [i|] eqn:Hp; [|done].
    destruct (position_by_id_lookup _ _ _ Hp) as (entry & Hi & _).
    simpl. by rewrite Hi.
  - by intros ->.
Qed.

(** A mutation that keeps the id leaves the object at the same place in
    the map, so a later lookup by id finds the mutated object. *)
Lemma position_by_id_alter (f : User.t → User.t) id us i :
  (∀ v, User.id (f v) = User.id v) →
  position_by_id id us = Some i →
  position_by_id id (alter (λ entry, (entry.1, f entry.2)) i us) = Some i.
Proof.
  intros Hf. revert i.
  induction us as [|[e' u'] l IH]; intros i; simpl; [done|].
  case_bool_decide as Hid.
  - intros [= <-]. simpl. rewrite Hf. by rewrite bool_decide_eq_true_2.
  - destruct (position_by_id id l) as [k|] eqn:Hk; simpl; [|done].
    intros [= <-]. simpl. rewrite bool_decide_eq_false_2; [|done].
    change (list_alter ?g k l) with (alter g k l).
    by rewrite (IH k eq_refl).
Qed.

Lemma getUserById_mutate f s id u :
  (∀ v, User.id (f v) = User.id v) →
  getUserById s id = Some u →
  getUserById (mutate_user f s id) id = Some (f u).
Proof.
  intros Hf Hu. destruct (getUserById_Some _ _ _ Hu) as (i & e & Hp & Hi).
  unfold mutate_user. rewrite Hp. unfold getUserById. simpl.
  rewrite (position_by_id_alter f id _ i Hf Hp).
  simpl. rewrite list_lookup_alter_eq, Hi. done.
Qed.

Lemma mutate_user_ext f g s id u :
  getUserById s id = Some u → f u = g u →
  mutate_user f s id = mutate_user g s id.
Proof.
  intros Hu Hfg. destruct (getUserById_Some _ _ _ Hu) as (i & e & Hp & Hi).
  unfold mutate_user. rewrite Hp. f_equal.
  apply list_alter_ext; [|done].
  intros entry Hentry. rewrite Hi in Hentry. injection Hentry as <-.
  simpl. by rewrite Hfg.
Qed.

Lemma mutate_user_twice f g s id :
  (∀ v, User.id (f v) = User.id v) →
  mutate_user g (mutate_user f s id) id = mutate_user (g ∘ f) s id.
Proof.
  intros Hf. unfold mutate_user at 2 3.
  destruct (position_by_id id (users s)) as [i|] eqn:Hp.
  - unfold mutate_user. simpl.
    rewrite (position_by_id_alter f id _ i Hf Hp).
    by rewrite list_alter_alter_eq.
  - unfold mutate_user. by rewrite Hp.
Qed.

Lemma Set_delete_absent x (l : list string) : x ∉ l → Set_delete x l = l.
Proof.
  intros Hx. unfold Set_delete. induction l as [|y l IH]; [done|].
  apply not_elem_of_cons in Hx as [Hne Hx].
  rewrite filter_cons_True by done. by rewrite IH.
Qed.

(** C7: for a user id that no user of the store carries, marking an
    article read, marking it favourite and removing a favourite all
    answer [false] and return the store as it was, users and articles
    alike. *)
Theorem unknown_user_not_found_store_unchanged s userId articleId t_now :
  getUserById s userId = None →
  markArticleAsRead s userId articleId t_now = (false, s) ∧
  markArticleAsFavorite s userId articleId t_now = (false, s) ∧
  removeFavoriteArticle s userId articleId t_now = (false, s).
Proof.
  intros Hnone.
  unfold markArticleAsRead, markArticleAsFavorite, removeFavoriteArticle.
  by rewrite Hnone.
Qed.

(** C8: for an existing user and an article id that is not among the
    user's favourites, removing the favourite answers [true] and changes
    nothing in the store but that user's [updatedAt]: the user is found
    under the same id with the same favourite set. Removing a second time
    answers [true] again and gives the favourite set (and, up to
    [updatedAt], the store) that removing once gives. *)
Theorem removeFavorite_absent_is_noop s userId articleId t1 t2 u :
  getUserById s userId = Some u →
  articleId ∉ User.favoriteArticles u →
  let once := removeFavoriteArticle s userId articleId t1 in
  let twice := removeFavoriteArticle once.2 userId articleId t2 in
  once.1 = true ∧
  once.2 = mutate_user (User.touch t1) s userId ∧
  User.favoriteArticles <$> getUserById once.2 userId
    = Some (User.favoriteArticles u) ∧
  twice.1 = true ∧
  twice.2 = mutate_user (User.touch t2) s userId ∧
  User.favoriteArticles <$> getUserById twice.2 userId
    = Some (User.favoriteArticles u).
Proof.
  intros Hu Hfav once twice.
  assert (Hrm : ∀ t v, User.favoriteArticles v = User.favoriteArticles u →
                User.removeFavorite articleId t v = User.touch t v).
  { intros t v Hv. unfold User.removeFavorite, User.touch.
    rewrite Hv. by rewrite (Set_delete_absent _ _ Hfav). }
  assert (H1 : once = (true, mutate_user (User.touch t1) s userId)).
  { unfold once, removeFavoriteArticle. rewrite Hu. f_equal.
    apply (mutate_user_ext _ _ _ _ u Hu). by apply Hrm. }
  pose proof (getUserById_mutate (User.touch t1) s userId u
                (λ _, eq_refl) Hu) as Hu1.
  assert (H2 : twice = (true, mutate_user (User.touch t2) s userId)).
  { unfold twice, removeFavoriteArticle. rewrite H1. simpl. rewrite Hu1.
    f_equal.
    rewrite (mutate_user_ext _ (User.touch t2) _ _ _ Hu1) by by apply Hrm.
    rewrite mutate_user_twice by done.
    by apply (mutate_user_ext _ _ _ _ u Hu). }
  rewrite H1, H2. simpl. rewrite Hu1.
  rewrite (getUserById_mutate (User.touch t2) s userId u (λ _, eq_refl) Hu).
  done.
Qed.

Lemma filter_Boolean_spec (s : t) (ids : list string) (a : Article.t) :
  a ∈ filter_Boolean (getArticle s <$> ids) ↔
  ∃ id, id ∈ ids ∧ getArticle s id = Some a.
Proof.
  unfold filter_Boolean. rewrite list_elem_of_omap. split.
  - intros (x & Hx & ->). apply list_elem_of_fmap in Hx as (id & Hid & ?).
    by exists id.
  - intros (id & Hid & Hget). exists (Some a). split; [|done].
    apply list_elem_of_fmap. by exists id.
Qed.

Lemma filter_Boolean_length (s : t) (ids : list string) :
  length (filter_Boolean (getArticle s <$> ids))
  = length (filter (λ id, is_Some (getArticle s id)) ids).
Proof.
  unfold filter_Boolean. induction ids as [|id ids IH]; [done|].
  rewrite fmap_cons.
  destruct (getArticle s id) as [a|] eqn:Hget.
  - rewrite filter_cons_True by (by rewrite Hget).
    simpl. f_equal. exact IH.
  - rewrite filter_cons_False; [exact IH|]. rewrite Hget. by intros [? ?].
Qed.

(** C10: for a user id nobody carries both queries return the empty
    list; otherwise an article is in the answer exactly when it is stored
    under an id of the user's read (favourite) set, and the answer has one
    entry per such id: an id without a stored article adds nothing, no
    failure and no empty slot. *)
Theorem user_article_queries_skip_missing s userId :
  match getUserById s userId with
  | None =>
      getUserReadArticles s userId = [] ∧
      getUserFavoriteArticles s userId = []
  | Some u =>
      (∀ a, a ∈ getUserReadArticles s userId ↔
            ∃ id, id ∈ User.readArticles u ∧ getArticle s id = Some a) ∧
      (∀ a, a ∈ getUserFavoriteArticles s userId ↔
            ∃ id, id ∈ User.favoriteArticles u ∧ getArticle s id = Some a) ∧
      length (getUserReadArticles s userId)
        = length (filter (λ id, is_Some (getArticle s id))
                    (User.readArticles u)) ∧
      length (getUserFavoriteArticles s userId)
        = length (filter (λ id, is_Some (getArticle s id))
                    (User.favoriteArticles u))
  end.
Proof.
  unfold getUserReadArticles, getUserFavoriteArticles.
  destruct (getUserById s userId) as [u|]; [|done].
  split_and!.
  - intros a. apply filter_Boolean_spec.
  - intros a. apply filter_Boolean_spec.
  - apply filter_Boolean_length.
  - apply filter_Boolean_length.
Qed.

End StoreFacts.

(* ===================================================================== *)
(** ** Properties of deduplication, sorting and truncation *)

Section PipelineFacts.

Implicit Types (seen : gset (option string)) (l : list Article.t).

Lemma dedup_from_app seen l1 l2 :
  dedup_from seen (l1 ++ l2)
  = dedup_from seen l1
    ++ dedup_from (seen ∪ list_to_set (Article.url <$> l1)) l2.
Proof.
  revert seen. induction l1 as [|a l1 IH]; intros seen; simpl.
  - f_equal. set_solver.
  - case_bool_decide as Hin.
    + rewrite IH. do 2 f_equal. set_solver.
    + simpl. rewrite IH. do 3 f_equal. set_solver.
Qed.

(** What survives the filter was in the input, at a position before
    which no article carries the same URL, and its URL was not in [seen]. *)
Lemma dedup_from_first seen l a :
  a ∈ dedup_from seen l →
  (Article.url a ∉ seen) ∧
  ∃ i, l !! i = Some a ∧
       ∀ j b, (j < i)%nat → l !! j = Some b → Article.url b ≠ Article.url a.
Proof.
  revert seen. induction l as [|x l IH]; intros seen; simpl.
  - by intros ?%elem_of_nil.
  - case_bool_decide as Hin.
    + intros [Hseen (i & Hi & Hfirst)]%IH. split; [done|].
      exists (S i). split; [done|]. intros [|j] b Hj; simpl.
      * intros [= <-]. congruence.
      * apply Hfirst. lia.
    + intros [->|Ha]%elem_of_cons.
      * split; [done|]. exists 0%nat. split; [done|]. intros; lia.
      * apply IH in Ha as [Hseen (i & Hi & Hfirst)]. split; [set_solver|].
        exists (S i). split; [done|]. intros [|j] b Hj; simpl.
        -- intros [= <-]. set_solver.
        -- apply Hfirst. lia.
Qed.

Lemma dedup_from_NoDup seen l : NoDup (Article.url <$> dedup_from seen l).
Proof.
  revert seen. induction l as [|x l IH]; intros seen; simpl.
  - constructor.
  - case_bool_decide as Hin; [apply IH|].
    rewrite fmap_cons. constructor; [|apply IH].
    intros (b & Hb & Hin')%list_elem_of_fmap.
    apply dedup_from_first in Hin' as [Hseen _]. set_solver.
Qed.

Lemma dedup_from_subseteq seen l : dedup_from seen l ⊆ l.
Proof.
  intros a Ha. apply dedup_from_first in Ha as (_ & i & Hi & _).
  by apply list_elem_of_lookup_2 in Hi.
Qed.

(** Distinct URLs: nothing is removed. *)
Lemma dedup_from_id seen l :
  NoDup (Article.url <$> l) → (∀ a, a ∈ l → Article.url a ∉ seen) →
  dedup_from seen l = l.
Proof.
  revert seen. induction l as [|x l IH]; intros seen Hnd Hseen; [done|].
  rewrite fmap_cons in Hnd. apply NoDup_cons in Hnd as [Hx Hnd]. simpl.
  rewrite bool_decide_eq_false_2 by (apply Hseen; left).
  f_equal. apply IH; [done|]. intros a Ha.
  apply not_elem_of_union. split; [|apply Hseen; by right].
  apply not_elem_of_singleton. intros Heq. apply Hx.
  rewrite <- Heq. apply list_elem_of_fmap. by exists a.
Qed.

Lemma insert_by_Permutation {A} (compare : A → A → option Z) x (l : list A) :
  insert_by compare x l ≡ₚ x :: l.
Proof.
  induction l as [|y l IH]; simpl; [done|].
  case_bool_decide; [done|]. rewrite IH. apply Permutation_swap.
Qed.

Lemma Array_sort_Permutation {A} (compare : A → A → option Z) (l : list A) :
  Array_sort compare l ≡ₚ l.
Proof.
  induction l as [|x l IH]; simpl; [done|].
  by rewrite insert_by_Permutation, IH.
Qed.

(** On valid dates the comparator is the difference of the time values. *)
Lemma newest_first_dated a b :
  dated a → dated b →
  ∃ ta tb, Article.publishedAt a = Some ta ∧ Article.publishedAt b = Some tb ∧
           newest_first a b = Some (tb - ta).
Proof.
  intros [ta Ha] [tb Hb]. exists ta, tb. unfold newest_first.
  by rewrite Ha, Hb.
Qed.

Lemma at_least_as_new_dated a b :
  dated a → dated b →
  (at_least_as_new a b ↔ default 0 (newest_first a b) ≤ 0) ∧
  (at_least_as_new b a ↔ 0 ≤ default 0 (newest_first a b)).
Proof.
  intros Ha Hb.
  destruct (newest_first_dated a b Ha Hb) as (ta & tb & Hta & Htb & ->).
  unfold at_least_as_new. simpl. split; split.
  - intros (ta' & tb' & ? & ? & ?). simplify_eq. lia.
  - intros ?. exists ta, tb. split_and!; [done..|lia].
  - intros (tb' & ta' & ? & ? & ?). simplify_eq. lia.
  - intros ?. exists tb, ta. split_and!; [done..|lia].
Qed.

Lemma insert_by_sorted x l :
  dated x → Forall dated l →
  StronglySorted at_least_as_new l →
  StronglySorted at_least_as_new (insert_by newest_first x l).
Proof.
  intros Hx Hl Hsorted. induction Hsorted as [|y l Hsorted IH Hall]; simpl.
  - repeat constructor.
  - apply Forall_cons in Hl as [Hy Hl].
    destruct (at_least_as_new_dated x y Hx Hy) as [Hxy Hyx].
    case_bool_decide as Hle.
    + apply Hxy in Hle. constructor; [by constructor|].
      constructor; [done|].
      eapply Forall_impl; [exact Hall|].
      intros z (ty & tz & ? & ? & ?).
      destruct Hle as (tx & ty' & ? & ? & ?). simplify_eq.
      exists tx, tz. split_and!; [done..|lia].
    + constructor; [by apply IH|].
      rewrite insert_by_Permutation. constructor; [|done].
      apply Hyx. lia.
Qed.

Lemma Array_sort_sorted l :
  Forall dated l →
  StronglySorted at_least_as_new (Array_sort newest_first l).
Proof.
  induction 1 as [|x l Hx Hl IH]; simpl; [constructor|].
  apply insert_by_sorted; [done| |done].
  by rewrite Array_sort_Permutation.
Qed.

(** An input already in order, newest first, comes back as it is. *)
Lemma Array_sort_id l :
  StronglySorted at_least_as_new l → Array_sort newest_first l = l.
Proof.
  induction 1 as [|x l Hsorted IH Hall]; [done|]. simpl. rewrite IH.
  destruct l as [|y l]; [done|]. simpl.
  apply Forall_cons in Hall as [(tx & ty & Hx & Hy & Hle) _].
  rewrite bool_decide_eq_true_2; [done|].
  unfold newest_first. rewrite Hx, Hy. simpl. lia.
Qed.

Lemma StronglySorted_lookup_newest l i j a b :
  StronglySorted at_least_as_new l →
  (i < j)%nat → l !! i = Some a → l !! j = Some b →
  at_least_as_new a b.
Proof.
  intros Hs. revert i j. induction Hs as [|x l Hs IH Hall]; intros i j Hij.
  - by rewrite lookup_nil.
  - destruct i as [|i], j as [|j]; simpl; try lia.
    + intros [= <-] Hb. rewrite Forall_forall in Hall.
      apply Hall. by apply list_elem_of_lookup_2 in Hb.
    + apply IH. lia.
Qed.

(** Truncation. *)
Lemma slice0_take {A} (l : list A) limit : ∃ n, slice0 l limit = take n l.
Proof. unfold slice0. eauto. Qed.

Lemma slice0_length {A} (l : list A) limit :
  0 ≤ limit → Z.of_nat (length (slice0 l limit)) ≤ limit.
Proof.
  intros Hlimit. unfold slice0.
  rewrite bool_decide_eq_false_2 by lia. rewrite length_take. lia.
Qed.

Lemma slice0_all {A} (l : list A) limit :
  Z.of_nat (length l) ≤ limit → slice0 l limit = l.
Proof.
  intros Hlimit. unfold slice0.
  rewrite bool_decide_eq_false_2 by lia. apply take_ge. lia.
Qed.

(** The three steps together. *)
Lemma finish_ordered merged limit i j a b :
  Forall dated (removeDuplicates merged) →
  (i < j)%nat →
  finish merged limit !! i = Some a → finish merged limit !! j = Some b →
  at_least_as_new a b.
Proof.
  unfold finish.
  destruct (slice0_take (Array_sort newest_first (removeDuplicates merged))
              limit) as [n ->].
  intros Hdated Hij [Ha _]%lookup_take_Some [Hb _]%lookup_take_Some.
  eapply StronglySorted_lookup_newest; eauto using Array_sort_sorted.
Qed.

Lemma finish_NoDup merged limit :
  NoDup (Article.url <$> finish merged limit).
Proof.
  unfold finish.
  destruct (slice0_take (Array_sort newest_first (removeDuplicates merged))
              limit) as [n ->].
  rewrite fmap_take. eapply sublist_NoDup; [|apply sublist_take].
  rewrite Array_sort_Permutation. apply dedup_from_NoDup.
Qed.

Lemma finish_first_occurrence merged limit a :
  a ∈ finish merged limit →
  ∃ i, merged !! i = Some a ∧
       ∀ j b, (j < i)%nat → merged !! j = Some b →
              Article.url b ≠ Article.url a.
Proof.
  unfold finish.
  destruct (slice0_take (Array_sort newest_first (removeDuplicates merged))
              limit) as [n ->].
  intros Ha%subseteq_take. rewrite Array_sort_Permutation in Ha.
  by apply dedup_from_first in Ha as [_ ?].
Qed.

End PipelineFacts.

(* ===================================================================== *)
(** ** Deduplication *)

Section Deduplication.

(** Of two different articles without URL the second is removed, so it
    is not the case that every article whose URL is empty or absent is
    kept. *)
Lemma removeDuplicates_drops_urlless_article :
  ¬ (∀ (articles : list Article.t) (a : Article.t),
       a ∈ articles → truthy (Article.url a) = false →
       a ∈ removeDuplicates articles).
Proof.
  intros Hkeep.
  specialize (Hkeep [bare "1" None; bare "2" None] (bare "2" None)).
  assert (Hres : removeDuplicates [bare "1" None; bare "2" None]
                 = [bare "1" None]) by by vm_compute.
  rewrite Hres in Hkeep.
  apply list_elem_of_singleton in Hkeep; [done| |done].
  apply elem_of_cons. right. apply elem_of_cons. by left.
Qed.

Example removeDuplicates_empty_url :
  removeDuplicates [bare "1" (Some ""); bare "2" (Some ""); bare "3" None]
  = [bare "1" (Some ""); bare "3" None].
Proof. by vm_compute. Qed.

(** C5 (amended): the article at any position of the input is removed
    exactly when an article before it has the same URL, where an absent
    URL equals an absent URL and an empty URL an empty one; the articles
    before it and after it are treated by the same rule. *)
Theorem removeDuplicates_keeps_first_occurrences
    (before : list Article.t) (a : Article.t) (after : list Article.t) :
  removeDuplicates (before ++ a :: after)
  = removeDuplicates before
    ++ (if bool_decide (Article.url a ∈ Article.url <$> before) then []
        else [a])
    ++ dedup_from (list_to_set (Article.url <$> (before ++ [a]))) after.
Proof.
  unfold removeDuplicates. rewrite dedup_from_app. f_equal. simpl.
  rewrite fmap_app. simpl.
  destruct (decide (Article.url a ∈ Article.url <$> before)) as [Hin|Hin].
  - rewrite bool_decide_eq_true_2 by set_solver.
    rewrite bool_decide_eq_true_2 by done. simpl. f_equal. set_solver.
  - rewrite bool_decide_eq_false_2 by set_solver.
    rewrite bool_decide_eq_false_2 by done. simpl. do 2 f_equal. set_solver.
Qed.

End Deduplication.

(* ===================================================================== *)
(** ** The personalised feed *)

Section PersonalizedNews.

Variable config : Config.
Variable oracle : Oracle.

Lemma getPersonalizedNews_finish preferences language limit w :
  getPersonalizedNews config oracle preferences language limit w
  = let '(merged, w') :=
      merged_articles config oracle preferences language limit w in
    (finish merged limit, w').
Proof.
  unfold getPersonalizedNews, merged_articles, bind, ret.
  destruct (fetchFromNewsAPI _ _ _ _ _ w) as [A w1].
  destruct (fetchFromGNews _ _ _ _ _ w1) as [B w2].
  destruct (A ++ B) as [|x m] eqn:HAB; simpl.
  - by destruct (getMockArticles oracle preferences w2).
  - done.
Qed.

(** C4 (amended): for every preference list, language and limit that is
    not negative, no two entries of the list [getPersonalizedNews] returns
    have the same URL, and each entry stands in the merged list (NewsAPI's
    articles before GNews's) at a position before which no article has its
    URL; its length is at most [limit]; and if every article left by the
    deduplication has a valid [publishedAt], the list is ordered by
    published timestamp, newest first. An article whose [publishedAt] is
    missing or does not parse makes the comparator NaN, and the order is
    then not guaranteed. *)
Theorem getPersonalizedNews_sorted_unique_bounded preferences language limit w :
  0 ≤ limit →
  let result :=
    (getPersonalizedNews config oracle preferences language limit w).1 in
  let merged :=
    (merged_articles config oracle preferences language limit w).1 in
  (Forall dated (removeDuplicates merged) →
   ∀ i j a b, (i < j)%nat → result !! i = Some a → result !! j = Some b →
     ∃ ta tb, Article.publishedAt a = Some ta ∧
              Article.publishedAt b = Some tb ∧ tb ≤ ta) ∧
  NoDup (Article.url <$> result) ∧
  (∀ a, a ∈ result →
        ∃ i, merged !! i = Some a ∧
             ∀ j b, (j < i)%nat → merged !! j = Some b →
                    Article.url b ≠ Article.url a) ∧
  Z.of_nat (length result) ≤ limit.
Proof.
  intros Hlimit. rewrite getPersonalizedNews_finish.
  destruct (merged_articles config oracle preferences language limit w) as [merged w'].
  simpl. split_and!.
  - intros Hdated i j a b. by apply finish_ordered.
  - apply finish_NoDup.
  - intros a. apply finish_first_occurrence.
  - unfold finish. by apply slice0_length.
Qed.

End PersonalizedNews.

(* ===================================================================== *)
(** ** Article construction, unfolded *)

Section Construction.

Variable oracle : Oracle.

Lemma after_draws_0 w : after_draws 0 w = w.
Proof. destruct w. unfold after_draws. simpl. f_equal. lia. Qed.

Lemma after_draws_S n w :
  after_draws n (after_draws 1 w) = after_draws (S n) w.
Proof. unfold after_draws. simpl. f_equal. lia. Qed.

Lemma fromNewsAPI_eq category r w :
  fromNewsAPI oracle category r w
  = (newsapi_article category (random_id oracle (drawn w)) (now w) r,
     after_draws 1 w).
Proof.
  unfold fromNewsAPI, new_Article, bind, ret, generateId, Date_now,
    after_draws. simpl. do 2 f_equal. lia.
Qed.

Lemma fromGNews_eq category r w :
  fromGNews oracle category r w
  = (gnews_article category (random_id oracle (drawn w)) (now w) r,
     after_draws 1 w).
Proof.
  unfold fromGNews, new_Article, bind, ret, generateId, Date_now,
    after_draws. simpl. do 2 f_equal. lia.
Qed.

(** Mapping a constructor over raw items: the k-th article gets the k-th
    next id; all are created at the same clock value. *)
Lemma mapM_construct (convert : RawArticle → M Article.t)
    (build : string → Z → RawArticle → Article.t) raws w :
  (∀ r w, convert r w
          = (build (random_id oracle (drawn w)) (now w) r, after_draws 1 w)) →
  mapM convert raws w
  = (imap (λ k r, build (random_id oracle (drawn w + k)) (now w) r) raws,
     after_draws (length raws) w).
Proof.
  intros Hconvert. revert w.
  induction raws as [|r raws IH]; intros w; simpl.
  - unfold ret. by rewrite after_draws_0.
  - unfold bind, ret. rewrite Hconvert, IH. simpl.
    rewrite after_draws_S. f_equal.
    rewrite Nat.add_0_r. f_equal. apply imap_ext. intros k x _. simpl.
    do 2 f_equal. lia.
Qed.

End Construction.

(* ===================================================================== *)
(** ** The synthetic articles *)

(** Two calls with the same category list, one millisecond apart, return
    different lists: the generator is not a function of the category list
    alone. *)
Lemma getMockArticles_depends_on_clock :
  ¬ (∀ (oracle : Oracle) (categories : list string) (w w' : World),
       (getMockArticles oracle categories w).1
       = (getMockArticles oracle categories w').1).
Proof.
  intros Hpure.
  specialize (Hpure unreachable ["general"] (fresh 0) (fresh 1)).
  vm_compute in Hpure. discriminate Hpure.
Qed.

Section Synthetic.

Variable oracle : Oracle.

Lemma getMockArticles_eq categories w :
  getMockArticles oracle categories w
  = (imap (λ k r, newsapi_article (or_else (head categories) "general")
                    (random_id oracle (drawn w + k)) (now w) r)
       (relevant categories (now w)),
     after_draws (length (relevant categories (now w))) w).
Proof.
  unfold getMockArticles, bind, Date_now. fold (relevant categories (now w)).
  apply mapM_construct. intros r w'. apply fromNewsAPI_eq.
Qed.

Lemma relevant_length categories t :
  length (relevant categories t)
  = if bool_decide ("general" ∈ categories) then 5%nat else 3%nat.
Proof. unfold relevant. by case_bool_decide. Qed.

Lemma getMockArticles_urls categories w :
  NoDup (Article.url <$> (getMockArticles oracle categories w).1).
Proof.
  rewrite getMockArticles_eq. unfold relevant.
  case_bool_decide; simpl; apply (bool_decide_unpack _); by vm_compute.
Qed.

Lemma getMockArticles_newest_first categories w :
  StronglySorted at_least_as_new (getMockArticles oracle categories w).1.
Proof.
  rewrite getMockArticles_eq. unfold relevant.
  case_bool_decide; simpl;
    repeat first [ apply SSorted_nil | apply SSorted_cons
                 | apply List.Forall_nil | apply List.Forall_cons ];
    unfold at_least_as_new; simpl;
    eexists _, _; (split_and!; [reflexivity..|lia]).
Qed.

Lemma getMockArticles_length categories w :
  length (getMockArticles oracle categories w).1
  = if bool_decide ("general" ∈ categories) then 5%nat else 3%nat.
Proof.
  rewrite getMockArticles_eq. simpl. rewrite length_imap.
  apply relevant_length.
Qed.

(** The synthetic articles have different URLs and come newest first, so
    deduplication and sorting leave them as they are. *)
Lemma finish_mock categories limit w :
  Z.of_nat (length (getMockArticles oracle categories w).1) ≤ limit →
  finish (getMockArticles oracle categories w).1 limit
  = (getMockArticles oracle categories w).1.
Proof.
  intros Hlimit. unfold finish, removeDuplicates.
  rewrite dedup_from_id.
  - rewrite Array_sort_id by apply getMockArticles_newest_first.
    by apply slice0_all.
  - apply getMockArticles_urls.
  - intros; set_solver.
Qed.

End Synthetic.

Section NoProviders.

Variable config : Config.
Variable oracle : Oracle.
Hypothesis no_newsapi : truthy (newsApiKey config) = false.
Hypothesis no_gnews : truthy (gnewsApiKey config) = false.

Lemma merged_articles_mock preferences language limit w :
  merged_articles config oracle preferences language limit w
  = getMockArticles oracle preferences w.
Proof using no_newsapi no_gnews.
  unfold merged_articles, fetchFromNewsAPI, fetchFromGNews, fetch_by_category.
  rewrite no_newsapi, no_gnews. done.
Qed.

Lemma feed_is_mock preferences language limit w :
  Z.of_nat (length (getMockArticles oracle preferences w).1) ≤ limit →
  (getPersonalizedNews config oracle preferences language limit w).1
  = (getMockArticles oracle preferences w).1.
Proof using no_newsapi no_gnews.
  intros Hlimit. rewrite getPersonalizedNews_finish, merged_articles_mock.
  destruct (getMockArticles oracle preferences w) as [mock w'] eqn:Hmock.
  simpl. replace mock with (getMockArticles oracle preferences w).1
    by by rewrite Hmock.
  apply finish_mock. by rewrite Hmock.
Qed.

(** C3 (amended): with no provider key configured,
    [getPersonalizedNews] returns exactly the synthetic articles: all five
    when the preferences contain [general] and the limit is at least 5 (so
    for [['general'], 'en', 10]), and the first three, each tagged with the
    first requested category (a non-empty string), when they do not and the
    limit is at least 3. Titles, descriptions, URLs, images, sources,
    contents, authors and the tag are a function of the category list
    alone; the ids come from the id generator and the timestamps from the
    clock ([publishedAt] is the call time minus k hours for the k-th
    article), and the generator touches neither cache nor network. *)
Theorem synthetic_feed_without_providers language w :
  (∀ preferences limit, "general" ∈ preferences → 5 ≤ limit →
     let result :=
       (getPersonalizedNews config oracle preferences language limit w).1 in
     result = (getMockArticles oracle preferences w).1 ∧
     length result = 5%nat) ∧
  (∀ first others limit,
     "general" ∉ first :: others → first ≠ "" → 3 ≤ limit →
     let result :=
       (getPersonalizedNews config oracle (first :: others) language limit
          w).1 in
     result = (getMockArticles oracle (first :: others) w).1 ∧
     length result = 3%nat ∧
     ∀ a, a ∈ result → Article.category a = first) ∧
  (∀ categories oracle' w',
     fixed_part <$> (getMockArticles oracle categories w).1
     = fixed_part <$> (getMockArticles oracle' categories w').1) ∧
  (∀ categories k a,
     (getMockArticles oracle categories w).1 !! k = Some a →
     Article.id a = random_id oracle (drawn w + k) ∧
     Article.publishedAt a = Some (now w - Z.of_nat k * 3600000) ∧
     Article.createdAt a = now w) ∧
  (∀ categories,
     ∃ n, (getMockArticles oracle categories w).2 = after_draws n w).
Proof using no_newsapi no_gnews.
  split_and!.
  - intros preferences limit Hgeneral Hlimit result.
    assert (Hlen : length (getMockArticles oracle preferences w).1 = 5%nat).
    { rewrite getMockArticles_length. by rewrite bool_decide_eq_true_2. }
    unfold result. rewrite feed_is_mock by lia. done.
  - intros first others limit Hgeneral Hfirst Hlimit result.
    assert (Hlen : length (getMockArticles oracle (first :: others) w).1
                   = 3%nat).
    { rewrite getMockArticles_length. by rewrite bool_decide_eq_false_2. }
    unfold result. rewrite feed_is_mock by lia. split_and!; [done..|].
    rewrite getMockArticles_eq. simpl. intros a Ha.
    apply list_elem_of_lookup in Ha as [k Hk].
    rewrite list_lookup_imap in Hk.
    destruct (relevant (first :: others) (now w) !! k) as [r|]; [|done].
    injection Hk as <-. simpl.
    unfold or_else. simpl. destruct first; [done|]. done.
  - intros categories oracle' w'. rewrite !getMockArticles_eq. simpl.
    unfold relevant. case_bool_decide; reflexivity.
  - intros categories k a. rewrite getMockArticles_eq. simpl.
    unfold relevant.
    case_bool_decide; destruct k as [|[|[|[|[|k]]]]]; simpl; try done;
      intros [= <-]; simpl; split_and!; try done; f_equal; lia.
  - intros categories. rewrite getMockArticles_eq. simpl. eauto.
Qed.

End NoProviders.

(* ===================================================================== *)
(** ** The cache *)

Section Cache.

Variable config : Config.

Lemma cache_get_live key value expiry w :
  cache w !! key = Some (value, expiry) → now w ≤ expiry →
  cache_get key w = (Some value, w).
Proof.
  intros Hentry Hlive. unfold cache_get. rewrite Hentry.
  by rewrite bool_decide_eq_true_2.
Qed.

Lemma cache_get_expired key value expiry w :
  cache w !! key = Some (value, expiry) → expiry < now w →
  (cache_get key w).1 = None ∧ cache (cache_get key w).2 !! key = None.
Proof.
  intros Hentry Hdead. unfold cache_get. rewrite Hentry.
  rewrite bool_decide_eq_false_2 by lia. simpl.
  split; [done|]. apply lookup_delete_eq.
Qed.

Lemma cache_set_entry key value w :
  cache (cache_set config key value w).2 !! key
  = Some (value, now w + cache_ttl config * 1000) ∧
  now (cache_set config key value w).2 = now w.
Proof. unfold cache_set. simpl. split; [apply lookup_insert_eq|done]. Qed.

(** C6: with a TTL that is not negative, a [get] of a key right after its
    [set] returns the value set, and so does every [get] until the TTL
    has elapsed, as long as the entry is not overwritten or flushed; a
    [get] after the TTL has elapsed returns absent, whether the entry is
    still stored or was already removed, and the entry is gone afterwards. *)
Theorem cache_set_then_get key value w :
  0 ≤ cache_ttl config →
  let stored := (cache_set config key value w).2 in
  (cache_get key stored).1 = Some value ∧
  (∀ later, cache later !! key = cache stored !! key →
     now later ≤ now w + cache_ttl config * 1000 →
     cache_get key later = (Some value, later)) ∧
  (∀ later,
     cache later !! key = cache stored !! key ∨ cache later !! key = None →
     now w + cache_ttl config * 1000 < now later →
     (cache_get key later).1 = None ∧
     cache (cache_get key later).2 !! key = None).
Proof.
  intros Httl stored.
  destruct (cache_set_entry key value w) as [Hentry Hnow].
  fold stored in Hentry, Hnow. split_and!.
  - erewrite cache_get_live; [done|exact Hentry|]. lia.
  - intros later Hsame Hlive. rewrite Hentry in Hsame.
    by eapply cache_get_live.
  - intros later [Hsame|Hgone] Hdead.
    + rewrite Hentry in Hsame. by eapply cache_get_expired.
    + unfold cache_get. by rewrite Hgone.
Qed.

End Cache.

(* ===================================================================== *)
(** ** Search *)

Section Search.

Variable config : Config.
Variable oracle : Oracle.

Lemma searchNews_hit keyword language pageSize value expiry w :
  cache w !! search_key keyword language pageSize = Some (value, expiry) →
  now w ≤ expiry →
  searchNews config oracle keyword language pageSize w = (value, w).
Proof.
  intros Hentry Hlive. unfold searchNews, bind.
  by rewrite (cache_get_live _ _ _ _ Hentry Hlive).
Qed.

(** After a miss the merged list is stored under the search key at the
    instant the function returns. *)
Lemma searchNews_miss keyword language pageSize w :
  (cache_get (search_key keyword language pageSize) w).1 = None →
  let run := searchNews config oracle keyword language pageSize w in
  cache run.2 !! search_key keyword language pageSize
  = Some (run.1, now run.2 + cache_ttl config * 1000).
Proof.
  intros Hmiss. unfold searchNews, bind.
  destruct (cache_get _ w) as [[cached|] w0]; [done|]. clear Hmiss.
  match goal with |- context [(if ?c then ?x else ?y) w0] =>
    destruct ((if c then x else y) w0) as [fromA wA] end.
  match goal with |- context [(if ?c then ?x else ?y) wA] =>
    destruct ((if c then x else y) wA) as [fromB wB] end.
  simpl. apply lookup_insert_eq.
Qed.

(** C9: whatever list [searchNews] returns, the empty list included, is
    afterwards the live cache entry under the key built from keyword,
    language and page size; and as long as that entry stands and its
    expiry instant has not passed, a call with the same arguments returns
    that list and leaves the world as it is, so that no request is sent
    to any provider. *)
Theorem searchNews_repeat_served_from_cache keyword language pageSize w :
  0 ≤ cache_ttl config →
  let run := searchNews config oracle keyword language pageSize w in
  ∃ expiry,
    cache run.2 !! search_key keyword language pageSize
      = Some (run.1, expiry) ∧
    now run.2 ≤ expiry ∧
    ∀ later,
      cache later !! search_key keyword language pageSize
        = Some (run.1, expiry) →
      now later ≤ expiry →
      searchNews config oracle keyword language pageSize later
        = (run.1, later) ∧
      sent (searchNews config oracle keyword language pageSize later).2
        = sent later.
Proof.
  intros Httl run.
  assert (Hserve : ∀ expiry later,
    cache later !! search_key keyword language pageSize
      = Some (run.1, expiry) →
    now later ≤ expiry →
    searchNews config oracle keyword language pageSize later = (run.1, later) ∧
    sent (searchNews config oracle keyword language pageSize later).2
      = sent later).
  { intros expiry later Hentry Hlive.
    by rewrite (searchNews_hit _ _ _ _ _ _ Hentry Hlive). }
  destruct (cache w !! search_key keyword language pageSize)
    as [[value expiry]|] eqn:Hentry.
  - destruct (decide (now w ≤ expiry)) as [Hlive|Hdead].
    + exists expiry. unfold run.
      rewrite (searchNews_hit _ _ _ _ _ _ Hentry Hlive). simpl.
      split_and!; [done..|]. intros later.
      specialize (Hserve expiry later). unfold run in Hserve.
      by rewrite (searchNews_hit _ _ _ _ _ _ Hentry Hlive) in Hserve.
    + exists (now run.2 + cache_ttl config * 1000). split_and!.
      * apply searchNews_miss. unfold cache_get. rewrite Hentry.
        by rewrite bool_decide_eq_false_2.
      * lia.
      * apply Hserve.
  - exists (now run.2 + cache_ttl config * 1000). split_and!.
    + apply searchNews_miss. unfold cache_get. by rewrite Hentry.
    + lia.
    + apply Hserve.
Qed.

End Search.

(* ===================================================================== *)
(** ** Category-based fetch: what a failing request does *)

Section Fetch.

Variable config : Config.
Variable oracle : Oracle.

Lemma fetch_from_loop p categories language pageSize w :
  truthy (provider_key config p) = true →
  fetch_from config oracle p categories language pageSize w
  = let '(result, w') := loop_of config oracle p categories language pageSize [] w in
    (default [] result, w').
Proof.
  intros Hkey.
  destruct p; unfold fetch_from, fetchFromNewsAPI, fetchFromGNews,
    fetch_by_category, loop_of, bind, ret; simpl in *; rewrite Hkey;
    match goal with |- context [fetch_loop ?a ?b ?c ?d ?e ?f ?g ?h ?i ?j ?k] =>
      destruct (fetch_loop a b c d e f g h i j k) as [[r|] w'] end; done.
Qed.

Lemma fetch_loop_app prefix credential endpoint convert pre post language
    pageSize articles w :
  fetch_loop config oracle prefix credential endpoint convert (pre ++ post)
    language pageSize articles w
  = match fetch_loop config oracle prefix credential endpoint convert pre
            language pageSize articles w with
    | (Some articles', w') =>
        fetch_loop config oracle prefix credential endpoint convert post
          language pageSize articles' w'
    | (None, w') => (None, w')
    end.
Proof.
  revert articles w. induction pre as [|c pre IH]; intros articles w; [done|].
  simpl. unfold bind.
  destruct (cache_get _ w) as [[cached|] w0]; [apply IH|].
  destruct (axios_get oracle _ w0) as [[|[raw|]] w1]; [done| |apply IH].
  destruct (mapM _ _ w1) as [formatted w2].
  destruct (cache_set config _ formatted w2) as [[] w3]. apply IH.
Qed.

(** C2 (amended): take any list of categories and any category [c] in
    it whose request is really sent (its cache entry is missing or
    expired) after the categories before it were fetched without failure.
    If that request fails by throwing (network error, timeout, non-2xx
    status), the provider's fetch returns the empty list: the articles
    accumulated so far are not returned, and no request is sent for the
    categories after [c]. If the reply has no [articles] array, [c]
    contributes nothing and the fetch goes on with the categories after
    it, keeping what was accumulated. *)
Theorem failing_category_empties_the_fetch
    p before c after language pageSize w accumulated w1 w2 :
  truthy (provider_key config p) = true →
  loop_of config oracle p before language pageSize [] w = (Some accumulated, w1) →
  cache_get (category_key (provider_prefix p) c language pageSize) w1
    = (None, w2) →
  let request := request_of config p c language pageSize in
  let w3 := (axios_get oracle request w2).2 in
  (outcome (http oracle (sent w2) request) = Throws →
     fetch_from config oracle p (before ++ c :: after) language pageSize w = ([], w3) ∧
     sent w3 = sent w2 ++ [request]) ∧
  (outcome (http oracle (sent w2) request) = Body None →
     fetch_from config oracle p (before ++ c :: after) language pageSize w
     = let '(result, w') := loop_of config oracle p after language pageSize accumulated w3 in
       (default [] result, w')).
Proof.
  intros Hkey Hbefore Hmiss request w3.
  rewrite (fetch_from_loop _ _ _ _ _ Hkey).
  unfold loop_of in *. rewrite fetch_loop_app, Hbefore. simpl.
  unfold bind. rewrite Hmiss.
  fold (request_of config p c language pageSize). fold request.
  unfold w3, axios_get. simpl.
  split; intros ->; simpl; done.
Qed.

End Fetch.

(* ===================================================================== *)
(** ** Concrete runs *)

(** C1: with both providers configured and each returning an article with
    the URL [https://x.com/a], [searchNews] returns two entries with that
    URL: the search path does not remove duplicates. *)
Theorem searchNews_returns_same_url_twice :
  Article.url <$> (searchNews both_keys wire "launch" "en" 20 (fresh 0)).1
  = [Some "https://x.com/a"; Some "https://x.com/a"].
Proof. by vm_compute. Qed.

(** The [sports] request succeeds and alone yields an article; the
    [science] request throws; fetching both returns nothing, although the
    [sports] list was fetched and cached; and when the failing category
    comes first the other one is not even requested. *)
Lemma fetch_discards_accumulated_articles :
  let fetch := fetchFromNewsAPI newsapi_only flaky in
  length (fetch ["sports"] "en" 10 (fresh 0)).1 = 1%nat ∧
  (fetch ["sports"; "science"] "en" 10 (fresh 0)).1 = [] ∧
  req_subject <$> sent (fetch ["sports"; "science"] "en" 10 (fresh 0)).2
    = ["sports"; "science"] ∧
  (length ∘ fst)
    <$> cache (fetch ["sports"; "science"] "en" 10 (fresh 0)).2
          !! "newsapi_sports_en_10"
    = Some 1%nat ∧
  req_subject <$> sent (fetch ["science"; "sports"] "en" 10 (fresh 0)).2
    = ["science"].
Proof. split_and!; by vm_compute. Qed.

(** With limit [-1] the feed has four entries; and when the second of a
    provider's three stories carries no date, the feed comes back in the
    provider's order, the story of time 1000 before that of time 3000. *)
Lemma getPersonalizedNews_negative_limit_or_missing_date :
  ¬ (Z.of_nat
       (length
          (getPersonalizedNews no_keys unreachable ["general"] "en" (-1)
             (fresh 0)).1)
     ≤ -1) ∧
  Article.publishedAt
    <$> (getPersonalizedNews newsapi_only misdated ["sports"] "en" 10
           (fresh 0)).1
  = [Some 1000; None; Some 3000].
Proof.
  split; [|by vm_compute].
  assert (length (getPersonalizedNews no_keys unreachable ["general"] "en"
                    (-1) (fresh 0)).1 = 4%nat) as -> by by vm_compute.
  lia.
Qed.

(** The theorems above at concrete inputs. *)

Lemma failing_category_empties_the_fetch_run :
  (fetch_from newsapi_only flaky NewsAPI (["sports"] ++ "science" :: ["health"])
     "en" 10 (fresh 0)).1 = [].
Proof.
  edestruct (failing_category_empties_the_fetch newsapi_only flaky NewsAPI
               ["sports"] "science" ["health"] "en" 10 (fresh 0))
    as [Hthrows _].
  - reflexivity.
  - vm_compute. reflexivity.
  - vm_compute. reflexivity.
  - destruct Hthrows as [-> _]; reflexivity.
Defined.

Lemma synthetic_feed_without_providers_run :
  length (getPersonalizedNews no_keys unreachable ["general"] "en" 10
            (fresh 0)).1 = 5%nat ∧
  Article.category
    <$> (getPersonalizedNews no_keys unreachable ["technology"] "en" 10
           (fresh 0)).1
  = ["technology"; "technology"; "technology"].
Proof.
  destruct (synthetic_feed_without_providers no_keys unreachable eq_refl
              eq_refl "en" (fresh 0)) as (Hgeneral & Hother & _).
  split.
  - apply (Hgeneral ["general"] 10); [by left | lia].
  - destruct (Hother "technology" [] 10) as (-> & _); [|done|lia|].
    + intros Hin. apply list_elem_of_singleton in Hin. discriminate Hin.
    + reflexivity.
Defined.

Lemma getPersonalizedNews_sorted_unique_bounded_run :
  let result :=
    (getPersonalizedNews newsapi_only timely ["sports"] "en" 2 (fresh 0)).1 in
  0 ≤ 2 ∧
  Forall dated
    (removeDuplicates
       (merged_articles newsapi_only timely ["sports"] "en" 2 (fresh 0)).1) ∧
  (∀ a b, result !! 0%nat = Some a → result !! 1%nat = Some b →
     ∃ ta tb, Article.publishedAt a = Some ta ∧
              Article.publishedAt b = Some tb ∧ tb ≤ ta) ∧
  Z.of_nat (length result) ≤ 2.
Proof.
  intros result.
  assert (Hdated : Forall dated
            (removeDuplicates
               (merged_articles newsapi_only timely ["sports"] "en" 2
                  (fresh 0)).1)).
  { vm_compute. repeat (constructor; [by eexists|]). constructor. }
  destruct (getPersonalizedNews_sorted_unique_bounded newsapi_only timely
              ["sports"] "en" 2 (fresh 0)) as (Horder & _ & _ & Hlength);
    [lia|].
  split_and!; [lia|done| |done].
  intros a b. apply (Horder Hdated 0%nat 1%nat). lia.
Defined.

Lemma cache_set_then_get_run :
  (cache_get "k" (cache_set no_keys "k" [] (fresh 5)).2).1 = Some [].
Proof.
  apply (cache_set_then_get no_keys "k" [] (fresh 5)). simpl. lia.
Defined.

Lemma searchNews_repeat_served_from_cache_run :
  ∃ expiry,
    cache (searchNews no_keys unreachable "launch" "en" 20 (fresh 0)).2
      !! search_key "launch" "en" 20
    = Some ((searchNews no_keys unreachable "launch" "en" 20 (fresh 0)).1,
            expiry).
Proof.
  destruct (searchNews_repeat_served_from_cache no_keys unreachable "launch"
              "en" 20 (fresh 0)) as (expiry & Hentry & _).
  - simpl. lia.
  - by exists expiry.
Defined.

Lemma unknown_user_not_found_store_unchanged_run :
  DataStore.markArticleAsRead small_store "_nobody" "_a1" 7
  = (false, small_store).
Proof.
  apply (unknown_user_not_found_store_unchanged small_store "_nobody" "_a1" 7).
  reflexivity.
Defined.

Lemma removeFavorite_absent_is_noop_run :
  (DataStore.removeFavoriteArticle small_store "_u1" "_a2" 7).1 = true.
Proof.
  apply (removeFavorite_absent_is_noop small_store "_u1" "_a2" 7 8 reader).
  - reflexivity.
  - intros Hin. apply list_elem_of_singleton in Hin. discriminate Hin.
Defined.

(** The read set of [reader] names a stored and a missing article; only the
    stored one is returned. *)
Example getUserReadArticles_small_store :
  DataStore.getUserReadArticles small_store "_u1"
  = [bare "_a1" (Some "https://x.com/a")] ∧
  DataStore.getUserReadArticles small_store "_nobody" = [].
Proof. by vm_compute. Qed.

(* ===================================================================== *)
(** ** Further properties of deduplication and of the feed *)

Section FeedFacts.

Implicit Types (seen : gset (option string)) (l : list Article.t).

Lemma dedup_from_sublist seen l : dedup_from seen l `sublist_of` l.
Proof.
  revert seen. induction l as [|a l IH]; intros seen; simpl; [done|].
  case_bool_decide; [apply sublist_cons|apply sublist_skip]; apply IH.
Qed.

Lemma dedup_from_urls seen l u :
  u ∈ Article.url <$> dedup_from seen l ↔ u ∈ Article.url <$> l ∧ u ∉ seen.
Proof.
  revert seen. induction l as [|a l IH]; intros seen; simpl.
  - rewrite elem_of_nil. naive_solver.
  - case_bool_decide as Hin.
    + rewrite IH, elem_of_cons. naive_solver.
    + rewrite !fmap_cons, !elem_of_cons, IH.
      rewrite not_elem_of_union, not_elem_of_singleton.
      destruct (decide (u = Article.url a)); naive_solver.
Qed.

Lemma dedup_from_length seen l :
  length (dedup_from seen l)
  = size (list_to_set (Article.url <$> l) ∖ seen : gset (option string)).
Proof.
  revert seen. induction l as [|a l IH]; intros seen.
  - simpl. replace (∅ ∖ seen) with (∅ : gset (option string)) by set_solver.
    by rewrite size_empty.
  - rewrite fmap_cons, list_to_set_cons. cbn [dedup_from].
    set (rest := list_to_set (Article.url <$> l) : gset (option string)).
    case_bool_decide as Hin.
    + rewrite IH. fold rest. f_equal. set_solver.
    + cbn [length]. rewrite IH. fold rest.
      assert (({[Article.url a]} ∪ rest) ∖ seen
              = {[Article.url a]} ∪ rest ∖ ({[Article.url a]} ∪ seen)) as ->.
      { apply set_eq. intros u.
        rewrite !elem_of_union, !elem_of_difference, !elem_of_union,
          elem_of_singleton.
        destruct (decide (u = Article.url a)); naive_solver. }
      rewrite (size_union {[Article.url a]}
                 (rest ∖ ({[Article.url a]} ∪ seen))).
      * by rewrite size_singleton.
      * apply elem_of_disjoint. intros u Hu [_ Hnot]%elem_of_difference.
        apply Hnot. apply elem_of_union. by left.
Qed.

Lemma removeDuplicates_length l :
  length (removeDuplicates l) = distinct_urls l.
Proof.
  unfold removeDuplicates, distinct_urls.
  rewrite dedup_from_length. f_equal. set_solver.
Qed.

(** X1: deduplicating a list that was already deduplicated changes
    nothing. *)
Theorem removeDuplicates_idempotent l :
  removeDuplicates (removeDuplicates l) = removeDuplicates l.
Proof.
  unfold removeDuplicates. apply dedup_from_id.
  - apply dedup_from_NoDup.
  - intros a _. apply not_elem_of_empty.
Qed.

(** X2: deduplication keeps the articles it keeps in their input order,
    and keeps exactly one article for every URL that occurs in the input:
    the URLs of the result are those of the input, each once, and the
    result has as many entries as the input has different URLs. *)
Theorem removeDuplicates_one_per_url l :
  removeDuplicates l `sublist_of` l ∧
  NoDup (Article.url <$> removeDuplicates l) ∧
  (∀ u, u ∈ Article.url <$> removeDuplicates l ↔ u ∈ Article.url <$> l) ∧
  length (removeDuplicates l) = distinct_urls l.
Proof.
  unfold removeDuplicates, distinct_urls. split_and!.
  - apply dedup_from_sublist.
  - apply dedup_from_NoDup.
  - intros u. rewrite dedup_from_urls. set_solver.
  - apply removeDuplicates_length.
Qed.

End FeedFacts.

Section FeedSize.

Variable config : Config.
Variable oracle : Oracle.

Lemma Array_sort_length {A} (compare : A → A → option Z) (l : list A) :
  length (Array_sort compare l) = length l.
Proof. apply Permutation_length, Array_sort_Permutation. Qed.

Lemma finish_length merged limit :
  0 ≤ limit →
  Z.of_nat (length (finish merged limit))
  = Z.min limit (Z.of_nat (distinct_urls merged)).
Proof.
  intros Hlimit. unfold finish, slice0.
  rewrite bool_decide_eq_false_2 by lia.
  rewrite length_take, Array_sort_length, removeDuplicates_length. lia.
Qed.

Lemma merged_articles_nonempty preferences language limit w :
  (merged_articles config oracle preferences language limit w).1 ≠ [].
Proof.
  unfold merged_articles, bind.
  destruct (fetchFromNewsAPI _ _ _ _ _ w) as [A w1].
  destruct (fetchFromGNews _ _ _ _ _ w1) as [B w2].
  destruct (A ++ B) as [|x m]; [|done].
  intros Hnil. pose proof (getMockArticles_length oracle preferences w2) as Hlen.
  rewrite Hnil in Hlen. by case_bool_decide.
Qed.

Lemma distinct_urls_positive (l : list Article.t) :
  l ≠ [] → (0 < distinct_urls l)%nat.
Proof.
  intros Hl. rewrite <- removeDuplicates_length.
  destruct l as [|x l]; [done|]. unfold removeDuplicates. simpl.
  rewrite bool_decide_eq_false_2 by apply not_elem_of_empty. simpl. lia.
Qed.

Lemma feed_length preferences language limit w :
  0 ≤ limit →
  Z.of_nat
    (length (getPersonalizedNews config oracle preferences language limit w).1)
  = Z.min limit
      (Z.of_nat
         (distinct_urls
            (merged_articles config oracle preferences language limit w).1)).
Proof.
  intros Hlimit. rewrite getPersonalizedNews_finish.
  destruct (merged_articles config oracle preferences language limit w)
    as [merged w']. simpl. by apply finish_length.
Qed.

(** X3: for a limit that is not negative the feed has exactly
    [min(limit, n)] entries, [n] being the number of different URLs among
    the merged articles (the providers' articles, or the synthetic ones when
    the providers delivered nothing). *)
Theorem getPersonalizedNews_length preferences language limit w :
  0 ≤ limit →
  Z.of_nat
    (length (getPersonalizedNews config oracle preferences language limit w).1)
  = Z.min limit
      (Z.of_nat
         (distinct_urls
            (merged_articles config oracle preferences language limit w).1)).
Proof. apply feed_length. Qed.

(** X4: whatever the providers do (unconfigured, failing, or answering
    without articles), the feed for a limit of at least 1 is not empty. *)
Theorem getPersonalizedNews_never_empty preferences language limit w :
  1 ≤ limit →
  (getPersonalizedNews config oracle preferences language limit w).1 ≠ [].
Proof.
  intros Hlimit Hnil.
  pose proof (feed_length preferences language limit w) as Hlen.
  rewrite Hnil in Hlen. simpl in Hlen.
  pose proof (distinct_urls_positive _
    (merged_articles_nonempty preferences language limit w)). lia.
Qed.

End FeedSize.

(* ===================================================================== *)
(** ** What the provider adapters send, return and cache *)

Section Adapters.

Variable config : Config.
Variable oracle : Oracle.

(** The mapping function of a provider, unfolded. *)
Lemma mapM_convert p category raws w :
  mapM (match p with
        | NewsAPI => fromNewsAPI oracle
        | GNews => fromGNews oracle
        end category) raws w
  = (imap (λ k r,
             match p with
             | NewsAPI => newsapi_article
             | GNews => gnews_article
             end category (random_id oracle (drawn w + k)) (now w) r) raws,
     after_draws (length raws) w).
Proof.
  destruct p.
  - apply (mapM_construct oracle (fromNewsAPI oracle category)
             (newsapi_article category)). intros. apply fromNewsAPI_eq.
  - apply (mapM_construct oracle (fromGNews oracle category)
             (gnews_article category)). intros. apply fromGNews_eq.
Qed.

Lemma converted_complete p category (ids : nat → string) (t : Z)
    (raws : list RawArticle) :
  Forall complete
    (imap (λ k r,
             match p with
             | NewsAPI => newsapi_article
             | GNews => gnews_article
             end category (ids k) t r)
       (filter has_title_and_url raws)).
Proof.
  apply Forall_forall. intros a Ha.
  apply list_elem_of_lookup in Ha as [k Hk].
  rewrite list_lookup_imap in Hk.
  destruct (filter has_title_and_url raws !! k) as [r|] eqn:Hr; [|done].
  injection Hk as <-.
  apply list_elem_of_lookup_2, list_elem_of_filter in Hr as [Hr _].
  unfold has_title_and_url in Hr. apply Is_true_true in Hr.
  apply andb_true_iff in Hr as [? ?]. by destruct p.
Qed.

Lemma cache_get_effect key w :
  now (cache_get key w).2 = now w ∧
  sent (cache_get key w).2 = sent w ∧
  drawn (cache_get key w).2 = drawn w ∧
  (cache_complete w → cache_complete (cache_get key w).2) ∧
  (∀ value, (cache_get key w).1 = Some value →
     (cache_get key w).2 = w ∧
     ∃ expiry, cache w !! key = Some (value, expiry) ∧ now w ≤ expiry).
Proof.
  unfold cache_get.
  destruct (cache w !! key) as [[v e]|] eqn:Hentry; [|by split_and!].
  case_bool_decide as Hlive; simpl.
  - split_and!; try done. intros value [= <-]. eauto.
  - split_and!; try done. intros Hok k v' e' Hk. simpl in Hk.
    apply lookup_delete_Some in Hk as [_ Hk]. by eapply Hok.
Qed.

(** The requests a run of the loop adds to the log. *)
Lemma loop_requests p categories language pageSize articles w :
  ∃ new,
    sent (loop_of config oracle p categories language pageSize articles w).2
      = sent w ++ new ∧
    (length new ≤ length categories)%nat ∧
    Forall (λ r, ∃ c, c ∈ categories ∧
                      r = request_of config p c language pageSize) new.
Proof.
  unfold loop_of. revert articles w.
  induction categories as [|c rest IH]; intros articles w.
  - exists []. simpl. rewrite app_nil_r. by split_and!.
  - simpl. unfold bind.
    destruct (cache_get_effect
                (category_key (provider_prefix p) c language pageSize) w)
      as (_ & Hsent & _).
    destruct (cache_get _ w) as [[cached|] w0]; simpl in Hsent.
    + destruct (IH (articles ++ cached) w0) as (new & Hnew & Hlen & Hall).
      exists new. rewrite Hnew, Hsent. split_and!; [done|lia|].
      eapply Forall_impl; [exact Hall|]. intros r (c' & ? & ?).
      exists c'. split; [by right|done].
    + fold (request_of config p c language pageSize).
      unfold axios_get at 1. simpl.
      set (w1 := {| now := _; cache := cache w0; drawn := drawn w0;
                    sent := sent w0 ++ [request_of config p c language pageSize] |}).
      assert (Hhead : ∃ c', c' ∈ c :: rest ∧
                request_of config p c language pageSize
                = request_of config p c' language pageSize)
        by (exists c; split; [by left|done]).
      assert (Htail : ∀ new,
                Forall (λ r, ∃ c', c' ∈ rest ∧
                   r = request_of config p c' language pageSize) new →
                Forall (λ r, ∃ c', c' ∈ c :: rest ∧
                   r = request_of config p c' language pageSize) new).
      { intros new Hall. eapply Forall_impl; [exact Hall|].
        intros r (c' & ? & ?). exists c'. split; [by right|done]. }
      destruct (outcome (http oracle (sent w0) _)) as [|[raw|]].
      * exists [request_of config p c language pageSize]. simpl.
        rewrite Hsent. split_and!; [done|lia|]. by constructor.
      * rewrite mapM_convert. unfold bind. simpl.
        match goal with |- context [fetch_loop _ _ _ _ _ _ rest _ _ ?a ?w'] =>
          destruct (IH a w') as (new & Hnew & Hlen & Hall) end.
        exists (request_of config p c language pageSize :: new).
        rewrite Hnew. simpl. rewrite Hsent, <- app_assoc. simpl.
        split_and!; [done|lia|]. constructor; [done|by apply Htail].
      * destruct (IH articles w1) as (new & Hnew & Hlen & Hall).
        exists (request_of config p c language pageSize :: new).
        rewrite Hnew. simpl. rewrite Hsent, <- app_assoc. simpl.
        split_and!; [done|lia|]. constructor; [done|by apply Htail].
Qed.

Lemma fetch_from_no_key p categories language pageSize w :
  truthy (provider_key config p) = false →
  fetch_from config oracle p categories language pageSize w = ([], w).
Proof.
  intros Hkey. destruct p; simpl in *;
    unfold fetchFromNewsAPI, fetchFromGNews, fetch_by_category;
    by rewrite Hkey.
Qed.

(** X5: a category-based fetch sends at most one request per requested
    category and none when the provider's key is not configured; every
    request it sends goes to the provider's headlines endpoint with the
    configured key, one of the requested categories, the language asked
    for, and the page size capped at 100. *)
Theorem fetch_requests_are_bounded p categories language pageSize w :
  ∃ new,
    sent (fetch_from config oracle p categories language pageSize w).2
      = sent w ++ new ∧
    (length new ≤ length categories)%nat ∧
    (truthy (provider_key config p) = false → new = []) ∧
    ∀ r, r ∈ new →
      req_url r = provider_headlines p ∧
      req_credential r = default "" (provider_key config p) ∧
      req_subject r ∈ categories ∧
      req_language r = language ∧
      req_size r = Z.min pageSize 100 ∧
      req_size r ≤ 100.
Proof.
  destruct (truthy (provider_key config p)) eqn:Hkey.
  - rewrite (fetch_from_loop _ _ _ _ _ _ _ Hkey).
    destruct (loop_requests p categories language pageSize [] w)
      as (new & Hnew & Hlen & Hall).
    destruct (loop_of config oracle p categories language pageSize [] w)
      as [result w']. simpl in *.
    exists new. split_and!; [done..|].
    intros r Hr. rewrite Forall_forall in Hall.
    destruct (Hall r Hr) as (c & Hc & ->). simpl. split_and!; try done. lia.
  - rewrite (fetch_from_no_key _ _ _ _ _ Hkey). exists []. simpl.
    rewrite app_nil_r. split_and!; [done|lia|done|].
    by intros r ?%elem_of_nil.
Qed.

Lemma cache_complete_insert w w' key value expiry :
  cache w' = <[key := (value, expiry)]> (cache w) →
  cache_complete w → Forall complete value → cache_complete w'.
Proof.
  intros Hcache Hok Hvalue k v e. rewrite Hcache.
  destruct (decide (key = k)) as [->|Hne].
  - rewrite lookup_insert_eq. by intros [= <- _].
  - rewrite lookup_insert_ne by done. apply Hok.
Qed.

Lemma cache_complete_same w w' :
  cache w' = cache w → cache_complete w → cache_complete w'.
Proof. intros Hcache Hok k v e. rewrite Hcache. apply Hok. Qed.

(** The loop keeps the cache free of articles without title or URL and
    accumulates only articles that have both. *)
Lemma loop_complete p categories language pageSize articles w :
  cache_complete w → Forall complete articles →
  cache_complete
    (loop_of config oracle p categories language pageSize articles w).2 ∧
  ∀ result,
    (loop_of config oracle p categories language pageSize articles w).1
      = Some result →
    Forall complete result.
Proof.
  unfold loop_of. revert articles w.
  induction categories as [|c rest IH]; intros articles w Hcache Hacc.
  - simpl. split; [done|]. by intros result [= <-].
  - simpl. unfold bind.
    destruct (cache_get_effect
                (category_key (provider_prefix p) c language pageSize) w)
      as (_ & _ & _ & Hok & Hhit). specialize (Hok Hcache).
    destruct (cache_get _ w) as [[cached|] w0]; simpl in Hok, Hhit.
    + destruct (Hhit cached eq_refl) as (-> & expiry & Hentry & _).
      apply IH; [done|]. apply Forall_app. split; [done|].
      by eapply Hcache.
    + unfold axios_get at 1. simpl.
      destruct (outcome (http oracle (sent w0) _)) as [|[raw|]].
      * simpl. split; [done|]. by intros result.
      * rewrite mapM_convert. unfold bind. simpl.
        apply IH.
        -- eapply cache_complete_insert;
             [reflexivity|exact Hok|apply converted_complete].
        -- apply Forall_app. split; [done|apply converted_complete].
      * apply IH; [|done]. by eapply cache_complete_same.
Qed.

(** When every requested category has a live cache entry, the loop
    returns the cached lists, one after the other, and changes nothing. *)
Lemma loop_all_cached p categories language pageSize articles w :
  (∀ c, c ∈ categories →
        live w (category_key (provider_prefix p) c language pageSize)) →
  loop_of config oracle p categories language pageSize articles w
  = (Some (articles
           ++ mjoin ((λ c, cached_articles w
                             (category_key (provider_prefix p) c language
                                pageSize)) <$> categories)), w).
Proof.
  unfold loop_of. revert articles.
  induction categories as [|c rest IH]; intros articles Hlive; simpl.
  - by rewrite app_nil_r.
  - unfold bind.
    destruct (Hlive c) as (value & expiry & Hentry & Hnow); [by left|].
    rewrite (cache_get_live _ _ _ _ Hentry Hnow).
    rewrite IH by (intros c' Hc'; apply Hlive; by right).
    unfold cached_articles at 2. rewrite Hentry. by rewrite <- app_assoc.
Qed.

(** X6: when the provider's key is configured and every requested
    category has a live cache entry, the fetch returns the cached lists in
    the order of the categories and leaves the cache, the clock and the
    request log as they are: no request is sent. *)
Theorem fetch_served_from_cache p categories language pageSize w :
  truthy (provider_key config p) = true →
  (∀ c, c ∈ categories →
        live w (category_key (provider_prefix p) c language pageSize)) →
  fetch_from config oracle p categories language pageSize w
  = (mjoin ((λ c, cached_articles w
                    (category_key (provider_prefix p) c language pageSize))
            <$> categories), w).
Proof.
  intros Hkey Hlive. rewrite (fetch_from_loop _ _ _ _ _ _ _ Hkey).
  by rewrite loop_all_cached.
Qed.

Lemma fetch_from_complete p categories language pageSize w :
  cache_complete w →
  cache_complete
    (fetch_from config oracle p categories language pageSize w).2 ∧
  Forall complete
    (fetch_from config oracle p categories language pageSize w).1.
Proof.
  intros Hcache. destruct (truthy (provider_key config p)) eqn:Hkey.
  - rewrite (fetch_from_loop _ _ _ _ _ _ _ Hkey).
    destruct (loop_complete p categories language pageSize [] w Hcache)
      as [Hcache' Hresult]; [constructor|].
    destruct (loop_of config oracle p categories language pageSize [] w)
      as [[result|] w']; simpl in *; split; auto.
  - rewrite (fetch_from_no_key _ _ _ _ _ Hkey). by split.
Qed.

Lemma getMockArticles_complete categories w :
  Forall complete (getMockArticles oracle categories w).1 ∧
  cache (getMockArticles oracle categories w).2 = cache w.
Proof.
  rewrite getMockArticles_eq. simpl. split; [|done]. unfold relevant.
  case_bool_decide; simpl; repeat constructor.
Qed.

Lemma finish_subseteq merged limit : finish merged limit ⊆ merged.
Proof.
  intros a Ha. apply finish_first_occurrence in Ha as (i & Hi & _).
  by apply list_elem_of_lookup_2 in Hi.
Qed.

Lemma finish_Forall (P : Article.t → Prop) merged limit :
  Forall P merged → Forall P (finish merged limit).
Proof.
  rewrite !Forall_forall. intros HP a Ha.
  apply HP. by apply (finish_subseteq merged limit).
Qed.

(** X7: if the cache holds no article without a title or a URL, neither
    does it after a category-based fetch or after [getPersonalizedNews],
    and every article they return has both a title and a URL, so that the
    deduplication never meets an article without URL. *)
Theorem feed_articles_have_title_and_url preferences language limit w :
  cache_complete w →
  (∀ p pageSize,
     let run := fetch_from config oracle p preferences language pageSize w in
     Forall complete run.1 ∧ cache_complete run.2) ∧
  let feed := getPersonalizedNews config oracle preferences language limit w in
  Forall complete feed.1 ∧ cache_complete feed.2.
Proof.
  intros Hcache. split.
  - intros p pageSize run.
    destruct (fetch_from_complete p preferences language pageSize w Hcache).
    by split.
  - rewrite getPersonalizedNews_finish. unfold merged_articles, bind.
    destruct (fetch_from_complete NewsAPI preferences language
                (ceil_half limit) w Hcache) as [Hc1 HA].
    simpl in Hc1, HA.
    destruct (fetchFromNewsAPI _ _ _ _ _ w) as [A w1]. simpl in Hc1, HA.
    destruct (fetch_from_complete GNews preferences language
                (ceil_half limit) w1 Hc1) as [Hc2 HB].
    simpl in Hc2, HB.
    destruct (fetchFromGNews _ _ _ _ _ w1) as [B w2]. simpl in Hc2, HB.
    assert (HAB : Forall complete (A ++ B)) by (apply Forall_app; by split).
    destruct (A ++ B) as [|x m] eqn:Hmerged.
    + destruct (getMockArticles_complete preferences w2) as [Hmock Hsame].
      destruct (getMockArticles oracle preferences w2) as [mock w3].
      simpl in *. split.
      * by apply finish_Forall.
      * by eapply cache_complete_same.
    + simpl. split; [|done]. by apply finish_Forall.
Qed.

(** X8: when the fetch of a single category returns a list that is not
    empty, that list is the live cache entry of the category afterwards;
    and as long as the entry stands and has not expired, fetching the
    category again returns the same list without sending a request. *)
Theorem fetch_category_cached p category language pageSize w :
  0 ≤ cache_ttl config →
  let run := fetch_from config oracle p [category] language pageSize w in
  let key := category_key (provider_prefix p) category language pageSize in
  run.1 ≠ [] →
  ∃ expiry,
    cache run.2 !! key = Some (run.1, expiry) ∧
    now run.2 ≤ expiry ∧
    ∀ later,
      cache later !! key = Some (run.1, expiry) → now later ≤ expiry →
      fetch_from config oracle p [category] language pageSize later
      = (run.1, later).
Proof.
  intros Httl run key Hresult.
  destruct (truthy (provider_key config p)) eqn:Hkey; cycle 1.
  { unfold run in Hresult. by rewrite (fetch_from_no_key _ _ _ _ _ Hkey) in Hresult. }
  assert (Hserve : ∀ value expiry later,
            cache later !! key = Some (value, expiry) → now later ≤ expiry →
            fetch_from config oracle p [category] language pageSize later
            = (value, later)).
  { intros value expiry later Hentry Hnow.
    rewrite (fetch_from_loop _ _ _ _ _ _ _ Hkey), loop_all_cached.
    - simpl. unfold cached_articles. fold key. rewrite Hentry.
      by rewrite app_nil_r.
    - intros c ->%list_elem_of_singleton. by exists value, expiry. }
  unfold run in *. clear run.
  rewrite (fetch_from_loop _ _ _ _ _ _ _ Hkey) in *.
  unfold loop_of in *. simpl in *. unfold bind in *. fold key in Hresult |- *.
  destruct (cache_get_effect key w) as (_ & _ & _ & _ & Hhit).
  destruct (cache_get key w) as [[cached|] w0]; simpl in Hhit.
  - destruct (Hhit cached eq_refl) as (-> & expiry & Hentry & Hnow).
    simpl. exists expiry. split_and!; [done..|].
    intros later. apply Hserve.
  - clear Hhit. unfold axios_get at 1 in Hresult. unfold axios_get at 1.
    simpl in *.
    destruct (outcome (http oracle (sent w0) _)) as [|[raw|]];
      [done| |done].
    rewrite mapM_convert in *. simpl in *.
    eexists. split_and!.
    + apply lookup_insert_eq.
    + lia.
    + intros later. apply Hserve.
Qed.

End Adapters.

(* ===================================================================== *)
(** ** What a search sends and returns *)

Section SearchFacts.

Variable config : Config.
Variable oracle : Oracle.

(** One search block, unfolded. *)
Lemma search_provider_eq p endpoint credential keyword language size w :
  let request := search_request endpoint credential keyword language size in
  let w1 := (axios_get oracle request w).2 in
  search_provider oracle endpoint credential
    (match p with
     | NewsAPI => fromNewsAPI oracle
     | GNews => fromGNews oracle
     end) keyword language size w
  = match outcome (http oracle (sent w) request) with
    | Body (Some raw) =>
        (imap (λ k r,
                 match p with
                 | NewsAPI => newsapi_article
                 | GNews => gnews_article
                 end "search" (random_id oracle (drawn w + k)) (now w1) r)
           (filter has_title_and_url raw),
         after_draws (length (filter has_title_and_url raw)) w1)
    | _ => ([], w1)
    end.
Proof.
  intros request w1. unfold search_provider, bind.
  fold (search_request endpoint credential keyword language size).
  fold request. unfold axios_get at 1. fold w1.
  change (axios_get oracle request w).2 with w1.
  destruct (outcome (http oracle (sent w) request)) as [|[raw|]]; try done.
  unfold w1 at 1. unfold axios_get at 1. simpl.
  by rewrite (mapM_convert oracle p).
Qed.

Lemma search_provider_effect p endpoint credential keyword language size w :
  let run :=
    search_provider oracle endpoint credential
      (match p with
       | NewsAPI => fromNewsAPI oracle
       | GNews => fromGNews oracle
       end) keyword language size w in
  sent run.2
    = sent w ++ [search_request endpoint credential keyword language size] ∧
  cache run.2 = cache w ∧
  now w ≤ now run.2 ∧
  Forall (λ a, complete a ∧ Article.category a = "search") run.1.
Proof.
  intros run. unfold run. rewrite search_provider_eq.
  destruct (outcome _) as [|[raw|]]; simpl; split_and!; try done; try lia.
  apply Forall_forall. intros a Ha.
  apply list_elem_of_lookup in Ha as [k Hk].
  rewrite list_lookup_imap in Hk.
  destruct (filter has_title_and_url raw !! k) as [r|] eqn:Hr; [|done].
  injection Hk as <-.
  apply list_elem_of_lookup_2, list_elem_of_filter in Hr as [Hr _].
  unfold has_title_and_url in Hr. apply Is_true_true in Hr.
  apply andb_true_iff in Hr as [? ?]. by destruct p.
Qed.

Lemma searchNews_unfold keyword language pageSize w :
  searchNews config oracle keyword language pageSize w
  = match cache_get (search_key keyword language pageSize) w with
    | (Some cached, w0) => (cached, w0)
    | (None, w0) =>
        let '(fromA, wA) :=
          (if truthy (newsApiKey config) then
             search_provider oracle (newsApi_base +:+ "/everything")
               (default "" (newsApiKey config)) (fromNewsAPI oracle) keyword
               language (Z.min pageSize 100)
           else ret []) w0 in
        let '(fromB, wB) :=
          (if truthy (gnewsApiKey config)
              && bool_decide (Z.of_nat (length fromA) < pageSize) then
             search_provider oracle (gnews_base +:+ "/search")
               (default "" (gnewsApiKey config)) (fromGNews oracle) keyword
               language (Z.min (pageSize - Z.of_nat (length fromA)) 100)
           else ret []) wA in
        (fromA ++ fromB,
         (cache_set config (search_key keyword language pageSize)
            (fromA ++ fromB) wB).2)
    end.
Proof.
  unfold searchNews, bind.
  destruct (cache_get _ w) as [[cached|] w0]; [done|].
  match goal with |- context [(if ?c then ?x else ?y) w0] =>
    destruct ((if c then x else y) w0) as [fromA wA] end.
  match goal with |- context [(if ?c then ?x else ?y) wA] =>
    destruct ((if c then x else y) wA) as [fromB wB] end.
  done.
Qed.

(** X9: the requests of a search, exactly. On a cache hit none is sent.
    On a miss NewsAPI is asked first, if its key is configured, with the
    page size capped at 100. With [n] the number of articles NewsAPI
    delivered (the items with title and URL of its reply; 0 if NewsAPI has
    no key, fails or sends no array), GNews is asked if and only if its key
    is configured and [n < pageSize], and then for [pageSize - n] articles,
    capped at 100. Nothing else is sent. *)
Theorem searchNews_requests keyword language pageSize w :
  let run := searchNews config oracle keyword language pageSize w in
  let toNewsAPI := everything_request config keyword language pageSize in
  let n :=
    if truthy (newsApiKey config)
    then delivered (outcome (http oracle (sent w) toNewsAPI))
    else 0%nat in
  sent run.2
  = sent w ++
    match (cache_get (search_key keyword language pageSize) w).1 with
    | Some _ => []
    | None =>
        (if truthy (newsApiKey config) then [toNewsAPI] else []) ++
        (if truthy (gnewsApiKey config)
            && bool_decide (Z.of_nat n < pageSize)
         then [gnews_search_request config keyword language
                 (pageSize - Z.of_nat n)]
         else [])
    end.
Proof.
  intros run toNewsAPI n. unfold run. rewrite searchNews_unfold.
  destruct (cache_get_effect (search_key keyword language pageSize) w)
    as (_ & Hsent & _).
  destruct (cache_get _ w) as [[cached|] w0]; simpl in Hsent |- *.
  { by rewrite Hsent, app_nil_r. }
  assert (HA : ∃ fromA wA,
    (if truthy (newsApiKey config) then
       search_provider oracle (newsApi_base +:+ "/everything")
         (default "" (newsApiKey config)) (fromNewsAPI oracle) keyword
         language (Z.min pageSize 100)
     else ret []) w0 = (fromA, wA) ∧
    sent wA
    = sent w ++ (if truthy (newsApiKey config) then [toNewsAPI] else []) ∧
    length fromA = n).
  { unfold n. destruct (truthy (newsApiKey config)).
    - rewrite (search_provider_eq NewsAPI).
      fold (everything_request config keyword language pageSize).
      fold toNewsAPI. rewrite Hsent.
      destruct (outcome (http oracle (sent w) toNewsAPI)) as [|[raw|]];
        eexists _, _; (split; [reflexivity|]); simpl;
        rewrite ?length_imap, Hsent; done.
    - exists [], w0. unfold ret. by rewrite Hsent, app_nil_r. }
  destruct HA as (fromA & wA & -> & HsA & ->).
  destruct (truthy (gnewsApiKey config)
            && bool_decide (Z.of_nat n < pageSize)) eqn:Hask.
  - destruct (search_provider_effect GNews (gnews_base +:+ "/search")
                (default "" (gnewsApiKey config)) keyword language
                (Z.min (pageSize - Z.of_nat n) 100) wA) as (HsB & _).
    simpl in HsB.
    destruct (search_provider _ _ _ _ _ _ _ wA) as [fromB wB].
    simpl in HsB |- *. rewrite HsB, HsA, <- app_assoc. done.
  - unfold ret. simpl. by rewrite HsA, app_nil_r.
Qed.

(** X10: with no provider key configured a search sends nothing and has no
    synthetic fallback: it returns the live cache entry of its key if there
    is one, and otherwise the empty list, which it stores under the key. *)
Theorem searchNews_without_providers keyword language pageSize w :
  truthy (newsApiKey config) = false →
  truthy (gnewsApiKey config) = false →
  searchNews config oracle keyword language pageSize w
  = match cache_get (search_key keyword language pageSize) w with
    | (Some cached, w0) => (cached, w0)
    | (None, w0) =>
        ([], (cache_set config (search_key keyword language pageSize) []
                w0).2)
    end.
Proof.
  intros Hno1 Hno2. rewrite searchNews_unfold, Hno1, Hno2. simpl.
  by destruct (cache_get _ w) as [[cached|] w0].
Qed.

(** X11: when NewsAPI is configured and answers a search with at least
    [pageSize] articles that have a title and a URL, GNews is not asked even
    if it is configured: the one request sent is the NewsAPI one, and the
    result is NewsAPI's articles, in order and not cut to the page size. *)
Theorem searchNews_newsapi_suffices keyword language pageSize w w0 raw :
  truthy (newsApiKey config) = true →
  cache_get (search_key keyword language pageSize) w = (None, w0) →
  outcome (http oracle (sent w0)
             (everything_request config keyword language pageSize))
    = Body (Some raw) →
  pageSize ≤ Z.of_nat (length (filter has_title_and_url raw)) →
  let run := searchNews config oracle keyword language pageSize w in
  sent run.2
    = sent w0 ++ [everything_request config keyword language pageSize] ∧
  Article.url <$> run.1 = raw_url <$> filter has_title_and_url raw.
Proof.
  intros Hkey Hmiss Hreply Henough run. unfold run.
  rewrite searchNews_unfold, Hmiss, Hkey.
  rewrite (search_provider_eq NewsAPI).
  fold (everything_request config keyword language pageSize).
  rewrite Hreply. rewrite length_imap.
  rewrite bool_decide_eq_false_2 by lia. rewrite andb_false_r.
  unfold ret. simpl. split; [done|].
  rewrite app_nil_r, fmap_imap. simpl.
  generalize (filter has_title_and_url raw). intros l.
  change (imap (λ _ : nat, raw_url) l) with (imap (const raw_url) l).
  apply imap_const.
Qed.

(** X12: if the cache holds no article without a title or a URL, neither
    does it after a search, and every article the search returns has both;
    the articles of a search that was not served from the cache are all
    tagged [search]. *)
Theorem searchNews_articles_have_title_and_url keyword language pageSize w :
  cache_complete w →
  let run := searchNews config oracle keyword language pageSize w in
  Forall complete run.1 ∧ cache_complete run.2 ∧
  ((cache_get (search_key keyword language pageSize) w).1 = None →
   Forall (λ a, Article.category a = "search") run.1).
Proof.
  intros Hcache run. unfold run. rewrite searchNews_unfold.
  destruct (cache_get_effect (search_key keyword language pageSize) w)
    as (_ & _ & _ & Hok & Hhit). specialize (Hok Hcache).
  destruct (cache_get _ w) as [[cached|] w0]; simpl in Hok, Hhit.
  { destruct (Hhit cached eq_refl) as (-> & expiry & Hentry & _).
    simpl. split_and!; [by eapply Hcache|done|done]. }
  assert (HA : ∃ fromA wA,
    (if truthy (newsApiKey config) then
       search_provider oracle (newsApi_base +:+ "/everything")
         (default "" (newsApiKey config)) (fromNewsAPI oracle) keyword
         language (Z.min pageSize 100)
     else ret []) w0 = (fromA, wA) ∧
    cache wA = cache w0 ∧
    Forall (λ a, complete a ∧ Article.category a = "search") fromA).
  { destruct (truthy (newsApiKey config)).
    - destruct (search_provider_effect NewsAPI (newsApi_base +:+ "/everything")
                  (default "" (newsApiKey config)) keyword language
                  (Z.min pageSize 100) w0) as (_ & Hc & _ & Hall).
      simpl in Hc, Hall.
      destruct (search_provider _ _ _ _ _ _ _ w0) as [fromA wA]. eauto.
    - exists [], w0. by split_and!. }
  destruct HA as (fromA & wA & -> & HcA & HallA).
  assert (HB : ∃ fromB wB,
    (if truthy (gnewsApiKey config)
        && bool_decide (Z.of_nat (length fromA) < pageSize) then
       search_provider oracle (gnews_base +:+ "/search")
         (default "" (gnewsApiKey config)) (fromGNews oracle) keyword
         language (Z.min (pageSize - Z.of_nat (length fromA)) 100)
     else ret []) wA = (fromB, wB) ∧
    cache wB = cache wA ∧
    Forall (λ a, complete a ∧ Article.category a = "search") fromB).
  { destruct (truthy (gnewsApiKey config)
              && bool_decide (Z.of_nat (length fromA) < pageSize)).
    - destruct (search_provider_effect GNews (gnews_base +:+ "/search")
                  (default "" (gnewsApiKey config)) keyword language
                  (Z.min (pageSize - Z.of_nat (length fromA)) 100) wA)
        as (_ & Hc & _ & Hall).
      simpl in Hc, Hall.
      destruct (search_provider _ _ _ _ _ _ _ wA) as [fromB wB]. eauto.
    - exists [], wA. by split_and!. }
  destruct HB as (fromB & wB & -> & HcB & HallB).
  assert (Hall : Forall (λ a, complete a ∧ Article.category a = "search")
                   (fromA ++ fromB)) by (apply Forall_app; by split).
  simpl. split_and!.
  - eapply Forall_impl; [exact Hall|]. by intros a [? ?].
  - eapply cache_complete_insert; [reflexivity| |].
    + eapply cache_complete_same; [|exact Hok]. by rewrite HcB, HcA.
    + eapply Forall_impl; [exact Hall|]. by intros a [? ?].
  - intros _. eapply Forall_impl; [exact Hall|]. by intros a [? ?].
Qed.

End SearchFacts.

(* ===================================================================== *)
(** ** Further properties of the store *)

Section StoreMore.
Import DataStore.

Lemma Map_get_set_eq {V} key (value : V) entries :
  Map_get key (Map_set key value entries) = Some value.
Proof.
  induction entries as [|[k v] rest IH]; simpl.
  - by rewrite bool_decide_eq_true_2.
  - case_bool_decide as Hk; simpl.
    + by rewrite bool_decide_eq_true_2.
    + by rewrite bool_decide_eq_false_2.
Qed.

Lemma Map_get_set_ne {V} key key' (value : V) entries :
  key' ≠ key →
  Map_get key' (Map_set key value entries) = Map_get key' entries.
Proof.
  intros Hne. induction entries as [|[k v] rest IH]; simpl.
  - by rewrite bool_decide_eq_false_2.
  - case_bool_decide as Hk; simpl.
    + subst k. by rewrite !bool_decide_eq_false_2.
    + case_bool_decide; [done|apply IH].
Qed.

Lemma Map_set_elem_of {V} key (value : V) entries e :
  e ∈ Map_set key value entries → e = (key, value) ∨ e ∈ entries.
Proof.
  induction entries as [|[k v] rest IH]; simpl.
  - intros ->%list_elem_of_singleton. by left.
  - case_bool_decide as Hk.
    + intros [->|?]%elem_of_cons; [by left|right; by right].
    + intros [->|He]%elem_of_cons; [right; by left|].
      destruct (IH He); [by left|right; by right].
Qed.

Lemma Map_set_keys {V} key (value : V) entries :
  fst <$> Map_set key value entries
  = if bool_decide (key ∈ fst <$> entries) then fst <$> entries
    else (fst <$> entries) ++ [key].
Proof.
  induction entries as [|[k v] rest IH]; [done|].
  cbn [Map_set]. rewrite fmap_cons. cbn [fst].
  destruct (decide (k = key)) as [->|Hk].
  - rewrite (bool_decide_eq_true_2 (key = key)) by done.
    rewrite bool_decide_eq_true_2; [done|by left].
  - rewrite (bool_decide_eq_false_2 (k = key)) by done.
    rewrite fmap_cons, IH. cbn [fst].
    destruct (decide (key ∈ fst <$> rest)) as [Hin|Hin].
    + rewrite bool_decide_eq_true_2 by done.
      rewrite bool_decide_eq_true_2; [done|by right].
    + rewrite bool_decide_eq_false_2 by done.
      rewrite bool_decide_eq_false_2; [done|].
      intros [?|?]%elem_of_cons; [by subst|done].
Qed.

Lemma Map_get_Some {V} key (value : V) entries :
  Map_get key entries = Some value → (key, value) ∈ entries.
Proof.
  induction entries as [|[k v] rest IH]; simpl; [done|].
  case_bool_decide as Hk.
  - intros [= <-]. subst k. by left.
  - intros ?. right. by apply IH.
Qed.

Lemma Map_get_None {V} key (entries : list (string * V)) :
  Map_get key entries = None ↔ key ∉ fst <$> entries.
Proof.
  induction entries as [|[k v] rest IH]; simpl.
  - split; [intros _ ?%elem_of_nil; done|done].
  - case_bool_decide as Hk.
    + subst k. split; [done|]. intros Hnot. destruct Hnot. by left.
    + rewrite IH, not_elem_of_cons. naive_solver.
Qed.

Lemma position_by_id_None id us :
  position_by_id id us = None ↔ ∀ e u, (e, u) ∈ us → User.id u ≠ id.
Proof.
  induction us as [|[e u] us IH]; simpl.
  - split; [by intros _ e u ?%elem_of_nil|done].
  - case_bool_decide as Hid.
    + split; [done|]. intros Hall. destruct (Hall e u); [by left|done].
    + destruct (position_by_id id us) as [i|] eqn:Hi; simpl.
      * split; [done|]. intros Hall.
        assert (Some i = None); [|done]. apply IH.
        intros e' u' Hin. apply (Hall e' u'). by right.
      * split; [|done]. intros _ e' u' [[= -> ->]|Hin]%elem_of_cons; [done|].
        destruct IH as [IH _]. by apply (IH eq_refl e' u').
Qed.

Lemma position_by_id_alter_any (f : User.t → User.t) id us i :
  (∀ v, User.id (f v) = User.id v) →
  position_by_id id (alter (λ entry, (entry.1, f entry.2)) i us)
  = position_by_id id us.
Proof.
  intros Hf. revert i. induction us as [|[e u] us IH]; intros i; [done|].
  destruct i as [|i]; simpl.
  - by rewrite Hf.
  - change (list_alter ?g i us) with (alter g i us). by rewrite IH.
Qed.

Lemma getUserById_mutate_other f s id id' :
  (∀ v, User.id (f v) = User.id v) → id' ≠ id →
  getUserById (mutate_user f s id) id' = getUserById s id'.
Proof.
  intros Hf Hne. unfold mutate_user.
  destruct (position_by_id id (users s)) as [i|] eqn:Hi; [|done].
  unfold getUserById. simpl. rewrite position_by_id_alter_any by done.
  destruct (position_by_id id' (users s)) as [j|] eqn:Hj; [|done]. simpl.
  rewrite list_lookup_alter_ne; [done|]. intros ->.
  destruct (position_by_id_lookup _ _ _ Hi) as (entry & Hentry & Hid).
  destruct (position_by_id_lookup _ _ _ Hj) as (entry' & Hentry' & Hid').
  congruence.
Qed.

(** X13: [getUserById] returns a user of the store that carries the id
    asked for, and returns nothing exactly when no user of the store
    carries it. *)
Theorem getUserById_finds_the_id s id :
  (∀ u, getUserById s id = Some u →
        User.id u = id ∧ ∃ email, (email, u) ∈ users s) ∧
  (getUserById s id = None ↔
   ∀ email u, (email, u) ∈ users s → User.id u ≠ id).
Proof.
  split.
  - intros u Hu. destruct (getUserById_Some _ _ _ Hu) as (i & e & Hp & Hi).
    destruct (position_by_id_lookup _ _ _ Hp) as (entry & Hentry & Hid).
    rewrite Hi in Hentry. injection Hentry as <-. split; [done|].
    exists e. by apply list_elem_of_lookup_2 in Hi.
  - rewrite getUserById_None. apply position_by_id_None.
Qed.

Lemma Map_set_length {V} key (value : V) entries :
  length (Map_set key value entries)
  = if bool_decide (is_Some (Map_get key entries)) then length entries
    else S (length entries).
Proof.
  rewrite <- (length_fmap fst (Map_set key value entries)), Map_set_keys.
  destruct (Map_get key entries) as [v|] eqn:Hget.
  - rewrite (bool_decide_eq_true_2 (is_Some (Some v))) by eauto.
    rewrite bool_decide_eq_true_2; [by rewrite length_fmap|].
    apply Map_get_Some in Hget. apply list_elem_of_fmap. by exists (key, v).
  - rewrite (bool_decide_eq_false_2 (is_Some None)) by by intros [? ?].
    apply Map_get_None in Hget. rewrite bool_decide_eq_false_2 by done.
    rewrite length_app, length_fmap. simpl. lia.
Qed.

Lemma position_after_set id email (user : User.t) us :
  User.id user = id →
  (∀ e u, (e, u) ∈ us → User.id u ≠ id) →
  ∃ i, position_by_id id (Map_set email user us) = Some i ∧
       Map_set email user us !! i = Some (email, user).
Proof.
  intros Hid. induction us as [|[k v] rest IH]; intros Hfresh; simpl.
  - exists 0%nat. by rewrite bool_decide_eq_true_2.
  - case_bool_decide as Hk; simpl.
    + exists 0%nat. by rewrite bool_decide_eq_true_2.
    + rewrite bool_decide_eq_false_2 by (apply (Hfresh k v); by left).
      destruct IH as (i & -> & Hi).
      { intros e u Hin. apply (Hfresh e u). by right. }
      by exists (S i).
Qed.

(** X14: [createUser] stores the new user under its email: a lookup by
    that email, and [userExists], find it; lookups by other emails and the
    articles are as before; the user starts with empty read and favourite
    sets. A user already stored under the email is replaced (the number of
    users stays), otherwise the number grows by one. If no stored user
    carries the new id, a lookup by id finds the new user. *)
Theorem createUser_registers s id name email password preferences t_now :
  let created := createUser s id name email password preferences t_now in
  getUserByEmail created.2 email = Some created.1 ∧
  userExists created.2 email = true ∧
  (∀ other, other ≠ email →
     getUserByEmail created.2 other = getUserByEmail s other) ∧
  articles created.2 = articles s ∧
  User.readArticles created.1 = [] ∧
  User.favoriteArticles created.1 = [] ∧
  length (users created.2)
    = (if userExists s email then length (users s)
       else S (length (users s))) ∧
  ((∀ e u, (e, u) ∈ users s → User.id u ≠ id) →
   getUserById created.2 id = Some created.1).
Proof.
  intros created. unfold created, createUser, getUserByEmail, userExists.
  simpl. split_and!; try done.
  - apply Map_get_set_eq.
  - rewrite Map_get_set_eq. apply bool_decide_eq_true_2. eauto.
  - intros other Hne. by apply Map_get_set_ne.
  - apply Map_set_length.
  - intros Hfresh. unfold getUserById. simpl.
    destruct (position_after_set id email
                (User.new id name email password preferences t_now)
                (users s) eq_refl Hfresh) as (i & -> & Hi).
    simpl. by rewrite Hi.
Qed.

Lemma Set_add_elem_of x y (l : list string) :
  y ∈ Set_add x l ↔ y = x ∨ y ∈ l.
Proof.
  unfold Set_add. case_bool_decide as Hin.
  - split; [by right|]. by intros [->|?].
  - rewrite elem_of_app, list_elem_of_singleton. naive_solver.
Qed.

Lemma Set_add_idempotent x (l : list string) :
  Set_add x (Set_add x l) = Set_add x l.
Proof.
  unfold Set_add at 1. rewrite bool_decide_eq_true_2; [done|].
  apply Set_add_elem_of. by left.
Qed.

Lemma Set_add_NoDup x (l : list string) : NoDup l → NoDup (Set_add x l).
Proof.
  intros Hl. unfold Set_add. case_bool_decide as Hin; [done|].
  apply NoDup_app. split_and!; [done| |apply NoDup_singleton].
  intros y Hy ->%list_elem_of_singleton. done.
Qed.

Lemma Set_delete_elem_of x y (l : list string) :
  y ∈ Set_delete x l ↔ y ≠ x ∧ y ∈ l.
Proof. unfold Set_delete. by rewrite list_elem_of_filter. Qed.

Lemma Set_delete_add x (l : list string) :
  x ∉ l → Set_delete x (Set_add x l) = l.
Proof.
  intros Hx. unfold Set_add. rewrite bool_decide_eq_false_2 by done.
  unfold Set_delete. rewrite filter_app, filter_cons_False by naive_solver.
  rewrite filter_nil, app_nil_r. by apply Set_delete_absent.
Qed.

(** X15: for an existing user, marking an article read (or favourite)
    answers [true]; afterwards the user found under the same id has the
    article in the read (favourite) set together with everything that was
    in it, and the other set and the preferences as before; users with
    another id and all articles are untouched. *)
Theorem marking_changes_one_user_only s userId articleId t_now u :
  getUserById s userId = Some u →
  let read := markArticleAsRead s userId articleId t_now in
  let fav := markArticleAsFavorite s userId articleId t_now in
  read.1 = true ∧ fav.1 = true ∧
  (∃ u', getUserById read.2 userId = Some u' ∧
         User.isArticleRead u' articleId = true ∧
         (∀ x, x ∈ User.readArticles u' ↔ x = articleId ∨ x ∈ User.readArticles u) ∧
         User.favoriteArticles u' = User.favoriteArticles u ∧
         User.preferences u' = User.preferences u) ∧
  (∃ u', getUserById fav.2 userId = Some u' ∧
         User.isArticleFavorite u' articleId = true ∧
         (∀ x, x ∈ User.favoriteArticles u'
               ↔ x = articleId ∨ x ∈ User.favoriteArticles u) ∧
         User.readArticles u' = User.readArticles u ∧
         User.preferences u' = User.preferences u) ∧
  (∀ other, other ≠ userId →
     getUserById read.2 other = getUserById s other ∧
     getUserById fav.2 other = getUserById s other) ∧
  articles read.2 = articles s ∧ articles fav.2 = articles s.
Proof.
  intros Hu read fav. unfold read, fav, markArticleAsRead,
    markArticleAsFavorite. rewrite Hu. simpl. split_and!; try done.
  - exists (User.markAsRead articleId t_now u). split_and!; try done.
    + by apply getUserById_mutate.
    + apply bool_decide_eq_true_2. simpl. apply Set_add_elem_of. by left.
    + intros x. simpl. apply Set_add_elem_of.
  - exists (User.markAsFavorite articleId t_now u). split_and!; try done.
    + by apply getUserById_mutate.
    + apply bool_decide_eq_true_2. simpl. apply Set_add_elem_of. by left.
    + intros x. simpl. apply Set_add_elem_of.
  - intros other Hne. split; by apply getUserById_mutate_other.
  - unfold mutate_user. by destruct (position_by_id userId (users s)).
  - unfold mutate_user. by destruct (position_by_id userId (users s)).
Qed.

(** X16: marking the same article read (or favourite) a second time
    leaves the user's read (favourite) set as the first marking left it. *)
Theorem marking_twice_is_marking_once s userId articleId t1 t2 u :
  getUserById s userId = Some u →
  let read1 := (markArticleAsRead s userId articleId t1).2 in
  let read2 := (markArticleAsRead read1 userId articleId t2).2 in
  let fav1 := (markArticleAsFavorite s userId articleId t1).2 in
  let fav2 := (markArticleAsFavorite fav1 userId articleId t2).2 in
  User.readArticles <$> getUserById read2 userId
    = User.readArticles <$> getUserById read1 userId ∧
  User.favoriteArticles <$> getUserById fav2 userId
    = User.favoriteArticles <$> getUserById fav1 userId.
Proof.
  intros Hu. simpl. unfold markArticleAsRead, markArticleAsFavorite.
  rewrite Hu. simpl.
  pose proof (getUserById_mutate (User.markAsRead articleId t1) s userId u
                (λ _, eq_refl) Hu) as Hr.
  pose proof (getUserById_mutate (User.markAsFavorite articleId t1) s userId u
                (λ _, eq_refl) Hu) as Hf.
  rewrite Hr, Hf. simpl.
  rewrite (getUserById_mutate (User.markAsRead articleId t2) _ userId _
             (λ _, eq_refl) Hr).
  rewrite (getUserById_mutate (User.markAsFavorite articleId t2) _ userId _
             (λ _, eq_refl) Hf).
  simpl. by rewrite !Set_add_idempotent.
Qed.

(** X17: for an existing user, removing a favourite answers [true] and
    afterwards the article is not a favourite of the user, while every
    other article is a favourite exactly if it was one before; and marking
    as favourite an article that was none and then removing it restores
    the favourite set. *)
Theorem removeFavorite_clears_the_mark s userId articleId t1 t2 u :
  getUserById s userId = Some u →
  let removed := removeFavoriteArticle s userId articleId t1 in
  let added := (markArticleAsFavorite s userId articleId t1).2 in
  removed.1 = true ∧
  (∃ u', getUserById removed.2 userId = Some u' ∧
         User.isArticleFavorite u' articleId = false ∧
         ∀ x, x ≠ articleId →
              User.isArticleFavorite u' x = User.isArticleFavorite u x) ∧
  (articleId ∉ User.favoriteArticles u →
   User.favoriteArticles
     <$> getUserById (removeFavoriteArticle added userId articleId t2).2 userId
   = Some (User.favoriteArticles u)).
Proof.
  intros Hu removed added.
  unfold removed, added, removeFavoriteArticle, markArticleAsFavorite.
  rewrite Hu. simpl. split_and!; [done| |].
  - exists (User.removeFavorite articleId t1 u). split_and!.
    + by apply getUserById_mutate.
    + apply bool_decide_eq_false_2. simpl. rewrite Set_delete_elem_of.
      naive_solver.
    + intros x Hx. unfold User.isArticleFavorite. simpl.
      apply bool_decide_ext. rewrite Set_delete_elem_of. naive_solver.
  - intros Hfresh.
    pose proof (getUserById_mutate (User.markAsFavorite articleId t1) s userId
                  u (λ _, eq_refl) Hu) as Hf.
    rewrite Hf. simpl.
    rewrite (getUserById_mutate (User.removeFavorite articleId t2) _ userId _
               (λ _, eq_refl) Hf).
    simpl. by rewrite Set_delete_add.
Qed.

Lemma mutate_user_users (f : User.t → User.t) s id :
  fst <$> users (mutate_user f s id) = fst <$> users s ∧
  ∀ e u', (e, u') ∈ users (mutate_user f s id) →
    (e, u') ∈ users s ∨ ∃ u, (e, u) ∈ users s ∧ u' = f u.
Proof.
  unfold mutate_user.
  destruct (position_by_id id (users s)) as [i|]; simpl; [|by auto].
  split.
  - apply list_eq. intros j. rewrite !list_lookup_fmap.
    destruct (decide (i = j)) as [->|Hne].
    + rewrite list_lookup_alter_eq. by destruct (users s !! j).
    + by rewrite list_lookup_alter_ne.
  - intros e u' Hin. apply list_elem_of_lookup in Hin as [j Hj].
    destruct (decide (i = j)) as [->|Hne].
    + rewrite list_lookup_alter_eq in Hj.
      destruct (users s !! j) as [[e0 u0]|] eqn:Hj0; [|done].
      injection Hj as <- <-. right. exists u0. split; [|done].
      by apply list_elem_of_lookup_2 in Hj0.
    + rewrite list_lookup_alter_ne in Hj by done. left.
      by apply list_elem_of_lookup_2 in Hj.
Qed.

Lemma mutate_user_ok (f : User.t → User.t) s id :
  (∀ u, User.email (f u) = User.email u) →
  (∀ u, NoDup (User.readArticles u) → NoDup (User.readArticles (f u))) →
  (∀ u, NoDup (User.favoriteArticles u) →
        NoDup (User.favoriteArticles (f u))) →
  store_ok s → store_ok (mutate_user f s id).
Proof.
  intros Hemail Hread Hfav [Hkeys Hall].
  destruct (mutate_user_users f s id) as [Hsame Helems].
  split; [by rewrite Hsame|].
  intros e u' [Hin|(u & Hin & ->)]%Helems; [by apply Hall|].
  destruct (Hall e u Hin) as (? & ? & ?). rewrite Hemail. auto.
Qed.

Lemma storeArticles_users s (l : list Article.t) :
  users (storeArticles s l).2 = users s.
Proof.
  unfold storeArticles. simpl. revert s.
  induction l as [|a l IH]; intros s; [done|]. simpl. by rewrite IH.
Qed.

Lemma empty_store_ok : store_ok (DataStore.mk [] ∅).
Proof. split; [constructor|]. by intros e u ?%elem_of_nil. Qed.

(** X18: the operations keep the store consistent. If every user is
    stored under its own email, no email occurs twice and no read or
    favourite set holds an id twice, then the same holds after
    [createUser], after marking read or favourite, after removing a
    favourite and after storing articles; and in such a store a lookup by
    email returns a user with that email. *)
Theorem store_stays_consistent s :
  store_ok s →
  (∀ id name email password preferences t_now,
     store_ok (createUser s id name email password preferences t_now).2) ∧
  (∀ userId articleId t_now,
     store_ok (markArticleAsRead s userId articleId t_now).2 ∧
     store_ok (markArticleAsFavorite s userId articleId t_now).2 ∧
     store_ok (removeFavoriteArticle s userId articleId t_now).2) ∧
  (∀ stored, store_ok (storeArticles s stored).2) ∧
  (∀ email u, getUserByEmail s email = Some u → User.email u = email).
Proof.
  intros Hok. split_and!.
  - intros id name email password preferences t_now.
    destruct Hok as [Hkeys Hall]. unfold createUser. simpl. split; simpl.
    + rewrite Map_set_keys. case_bool_decide as Hin; [done|].
      apply NoDup_app. split_and!; [done| |apply NoDup_singleton].
      by intros x Hx ->%list_elem_of_singleton.
    + intros e u [[= -> ->]|Hin]%Map_set_elem_of; [|by apply Hall].
      simpl. split_and!; [done|constructor..].
  - intros userId articleId t_now.
    unfold markArticleAsRead, markArticleAsFavorite, removeFavoriteArticle.
    destruct (getUserById s userId); simpl; [|by split_and!].
    split_and!; apply mutate_user_ok; try done; simpl; intros u0 Hnd.
    + by apply Set_add_NoDup.
    + by apply Set_add_NoDup.
    + by apply NoDup_filter.
  - intros stored. destruct Hok as [Hkeys Hall].
    split; rewrite storeArticles_users; done.
  - intros email u Hget. destruct Hok as [_ Hall].
    unfold getUserByEmail in Hget. apply Map_get_Some in Hget.
    by destruct (Hall email u Hget).
Qed.

Lemma foldl_storeArticle_lookup s (l : list Article.t) id :
  getArticle (foldl storeArticle s l) id
  = match last (filter (λ a, Article.id a = id) l) with
    | Some a => Some a
    | None => getArticle s id
    end.
Proof.
  induction l as [|a l IH] using rev_ind; [done|].
  rewrite foldl_app, filter_app. simpl. unfold getArticle at 1. simpl.
  destruct (decide (Article.id a = id)) as [Hid|Hid].
  - rewrite (filter_cons_True (λ a, Article.id a = id)) by done.
    rewrite filter_nil, last_snoc, <- Hid. apply lookup_insert_eq.
  - rewrite (filter_cons_False (λ a, Article.id a = id)) by done.
    rewrite filter_nil, app_nil_r, lookup_insert_ne by done. apply IH.
Qed.

(** X19: [storeArticles] returns the list it was given and leaves the
    users alone; afterwards a lookup by id returns the last article of the
    list with that id if there is one (an article stored earlier under the
    id is overwritten), and what the store held before otherwise. *)
Theorem storeArticles_then_getArticle s (stored : list Article.t) id :
  (storeArticles s stored).1 = stored ∧
  users (storeArticles s stored).2 = users s ∧
  getArticle (storeArticles s stored).2 id
  = match last (filter (λ a, Article.id a = id) stored) with
    | Some a => Some a
    | None => getArticle s id
    end.
Proof.
  split_and!; [done|apply storeArticles_users|].
  apply foldl_storeArticle_lookup.
Qed.

(** X20: once an existing user has marked a stored article read (or
    favourite), the article is among the user's read (favourite) articles
    that the store returns. *)
Theorem marked_article_is_listed s userId articleId t_now u a :
  getUserById s userId = Some u →
  getArticle s articleId = Some a →
  a ∈ getUserReadArticles (markArticleAsRead s userId articleId t_now).2
        userId ∧
  a ∈ getUserFavoriteArticles
        (markArticleAsFavorite s userId articleId t_now).2 userId.
Proof.
  intros Hu Ha. unfold markArticleAsRead, markArticleAsFavorite.
  rewrite Hu. simpl.
  unfold getUserReadArticles, getUserFavoriteArticles.
  rewrite (getUserById_mutate (User.markAsRead articleId t_now) s userId u
             (λ _, eq_refl) Hu).
  rewrite (getUserById_mutate (User.markAsFavorite articleId t_now) s userId u
             (λ _, eq_refl) Hu).
  split; apply filter_Boolean_spec; exists articleId; simpl.
  - split; [apply Set_add_elem_of; by left|].
    unfold getArticle, mutate_user in *.
    by destruct (position_by_id userId (users s)).
  - split; [apply Set_add_elem_of; by left|].
    unfold getArticle, mutate_user in *.
    by destruct (position_by_id userId (users s)).
Qed.

End StoreMore.

(* ===================================================================== *)
(** ** Pagination and the news controller *)

Section Pagination.

Context {A : Type}.
Implicit Types l : list A.

Lemma ceil_div_bounds (total limit : Z) :
  1 ≤ limit →
  (ceil_div total limit - 1) * limit < total ≤ ceil_div total limit * limit.
Proof.
  intros Hlimit. unfold ceil_div.
  pose proof (Z.mul_div_le (- total) limit ltac:(lia)).
  pose proof (Z.mul_succ_div_gt (- total) limit ltac:(lia)).
  nia.
Qed.

Lemma ceil_div_lt (page total limit : Z) :
  1 ≤ limit → page < ceil_div total limit ↔ page * limit < total.
Proof. intros Hlimit. pose proof (ceil_div_bounds total limit Hlimit). nia. Qed.

Lemma page_slice_eq l page limit :
  1 ≤ page → 1 ≤ limit →
  page_slice l page limit
  = take (Z.to_nat limit) (drop (Z.to_nat ((page - 1) * limit)) l).
Proof.
  intros Hpage Hlimit. unfold page_slice, Array_slice.
  rewrite !bool_decide_eq_false_2 by nia.
  set (start := (page - 1) * limit). set (len := Z.of_nat (length l)).
  destruct (decide (start ≤ len)) as [Hin|Hout].
  - rewrite (Z.min_l start len) by lia.
    destruct (decide (start + limit ≤ len)) as [Hfull|Hpart].
    + rewrite (Z.min_l (start + limit) len) by lia. f_equal. lia.
    + rewrite (Z.min_r (start + limit) len) by lia.
      rewrite !take_ge; [done|rewrite length_drop; lia..].
  - rewrite (Z.min_r start len), (Z.min_r (start + limit) len) by lia.
    rewrite !drop_ge by lia. by rewrite !take_nil.
Qed.

Lemma page_slice_length_le l page limit :
  1 ≤ page → 1 ≤ limit → Z.of_nat (length (page_slice l page limit)) ≤ limit.
Proof.
  intros Hpage Hlimit. rewrite page_slice_eq by done.
  rewrite length_take. lia.
Qed.

Lemma page_slice_nonempty l page limit :
  1 ≤ page → 1 ≤ limit →
  page_slice l page limit ≠ [] ↔ (page - 1) * limit < Z.of_nat (length l).
Proof.
  intros Hpage Hlimit. rewrite page_slice_eq by done.
  assert (Hstart : 0 ≤ (page - 1) * limit) by nia.
  generalize dependent ((page - 1) * limit). intros start Hstart.
  rewrite <- length_zero_iff_nil, length_take, length_drop. lia.
Qed.

(** X21: for a page number and a page size of at least 1, the page holds
    at most [limit] entries, and its j-th entry is entry
    [(page - 1) * limit + j] of the list when [j < limit] and the list is
    that long: consecutive pages cut the list into consecutive blocks. *)
Theorem page_slice_lookup l page limit (j : nat) :
  1 ≤ page → 1 ≤ limit →
  Z.of_nat (length (page_slice l page limit)) ≤ limit ∧
  page_slice l page limit !! j
  = if bool_decide (Z.of_nat j < limit)
    then l !! (Z.to_nat ((page - 1) * limit) + j)%nat
    else None.
Proof.
  intros Hpage Hlimit. rewrite page_slice_eq by done. split.
  - rewrite length_take. lia.
  - case_bool_decide as Hj.
    + rewrite lookup_take_lt by lia. apply lookup_drop.
    + apply lookup_take_ge. lia.
Qed.

(** X22: for a page number and a page size of at least 1, the response
    says [hasNext] exactly when the next page is not empty and [hasPrev]
    exactly when the page is not the first; a page is not empty exactly when
    its number is at most [totalPages]; and [totalPages] is the least
    number of pages that hold [total] entries. *)
Theorem pagination_flags l page limit :
  1 ≤ page → 1 ≤ limit →
  let meta := pagination_meta page limit (Z.of_nat (length l)) in
  (pg_hasNext meta = true ↔ page_slice l (page + 1) limit ≠ []) ∧
  (pg_hasPrev meta = true ↔ 1 < page) ∧
  (page_slice l page limit ≠ [] ↔ page ≤ pg_totalPages meta) ∧
  (pg_totalPages meta - 1) * limit < pg_total meta
    ≤ pg_totalPages meta * limit.
Proof.
  intros Hpage Hlimit meta. unfold meta, pagination_meta. simpl.
  pose proof (ceil_div_bounds (Z.of_nat (length l)) limit Hlimit) as Hb.
  split_and!.
  - rewrite bool_decide_eq_true, page_slice_nonempty by lia.
    rewrite ceil_div_lt by done. by replace (page + 1 - 1) with page by lia.
  - rewrite bool_decide_eq_true. lia.
  - rewrite page_slice_nonempty by done.
    rewrite <- (ceil_div_lt (page - 1)) by done. lia.
  - lia.
  - lia.
Qed.

End Pagination.

Section Controller.

(** X23: the three marking handlers (read, favourite, remove favourite)
    answer 200 exactly when the request passed validation, the article is
    in the store and the user exists; validation errors give 400, an
    unknown article 404 "Article not found" whether or not the user exists,
    an unknown user 404 "User not found"; and unless the answer is 200 the
    store is left as it was. *)
Theorem marking_handlers_statuses handler s errors userId id t_now :
  handler ∈ [NewsController.markAsRead; NewsController.markAsFavorite;
             NewsController.removeFavorite] →
  let run := handler s errors userId id t_now in
  (status run.1 = 200 ↔
   errors = [] ∧ is_Some (DataStore.getArticle s id) ∧
   is_Some (DataStore.getUserById s userId)) ∧
  (status run.1 ≠ 200 → run.2 = s) ∧
  (errors ≠ [] → status run.1 = 400) ∧
  (errors = [] → DataStore.getArticle s id = None →
   status run.1 = 404 ∧ message run.1 = "Article not found") ∧
  (errors = [] → is_Some (DataStore.getArticle s id) →
   DataStore.getUserById s userId = None →
   status run.1 = 404 ∧ message run.1 = "User not found").
Proof.
  intros Hhandler run.
  assert (Hcases : handler = NewsController.markAsRead ∨
                   handler = NewsController.markAsFavorite ∨
                   handler = NewsController.removeFavorite).
  { rewrite !elem_of_cons in Hhandler.
    destruct Hhandler as [?|[?|[?|?%elem_of_nil]]]; auto; done. }
  unfold run. clear run Hhandler.
  destruct Hcases as [->|[->| ->]];
    unfold NewsController.markAsRead, NewsController.markAsFavorite,
      NewsController.removeFavorite, DataStore.markArticleAsRead,
      DataStore.markArticleAsFavorite, DataStore.removeFavoriteArticle;
    (case_bool_decide as Herr;
     [ simpl; split_and!; try done; naive_solver
     | subst errors;
       destruct (DataStore.getArticle s id) as [a|];
       [ destruct (DataStore.getUserById s userId) as [u|]; simpl;
         split_and!; try done; try naive_solver;
         try (by intros [_ [_ [? ?]]]); split; eauto
       | simpl; split_and!; try done; try naive_solver;
         by intros [_ [[? ?] _]] ] ]).
Qed.

(** X24: for a user id that no user carries, the two listing handlers
    answer 200 with an empty page and a total of 0; they have no
    "user not found" answer. *)
Theorem listing_handlers_unknown_user s userId page limit t_now :
  DataStore.getUserById s userId = None →
  NewsController.getReadArticles s userId page limit t_now
  = createResponse 200 "Read articles retrieved successfully"
      (ArticlesPage [] (pagination_meta page limit 0)) t_now ∧
  NewsController.getFavoriteArticles s userId page limit t_now
  = createResponse 200 "Favorite articles retrieved successfully"
      (ArticlesPage [] (pagination_meta page limit 0)) t_now.
Proof.
  intros Hnone.
  unfold NewsController.getReadArticles, NewsController.getFavoriteArticles,
    DataStore.getUserReadArticles, DataStore.getUserFavoriteArticles.
  rewrite Hnone.
  assert (Hnil : page_slice (@nil Article.t) page limit = []).
  { unfold page_slice, Array_slice. by rewrite drop_nil, take_nil. }
  by rewrite Hnil.
Qed.

Lemma page_slice_subseteq {A} (l : list A) page limit :
  1 ≤ page → 1 ≤ limit → page_slice l page limit ⊆ l.
Proof.
  intros Hpage Hlimit. rewrite page_slice_eq by done.
  etrans; [apply subseteq_take|apply subseteq_drop].
Qed.

Lemma stored_article_lookup s (l : list Article.t) a :
  a ∈ l →
  ∃ a', DataStore.getArticle (DataStore.storeArticles s l).2 (Article.id a)
        = Some a' ∧
        last (filter (λ b, Article.id b = Article.id a) l) = Some a' ∧
        a' ∈ l ∧ Article.id a' = Article.id a.
Proof.
  intros Ha. unfold DataStore.storeArticles. simpl.
  rewrite foldl_storeArticle_lookup.
  destruct (last (filter (λ a0, Article.id a0 = Article.id a) l))
    as [a'|] eqn:Hlast.
  - exists a'. split_and!; [done..| |].
    + apply last_Some_elem_of, list_elem_of_filter in Hlast. tauto.
    + apply last_Some_elem_of, list_elem_of_filter in Hlast. tauto.
  - apply last_None in Hlast.
    assert (a ∈ filter (λ a0, Article.id a0 = Article.id a) l)
      by (by apply list_elem_of_filter).
    rewrite Hlast in *. by apply elem_of_nil in H.
Qed.

(** X25: [getNews] for a user id that no user carries answers 404 without
    calling the news service: no request is sent, cache and store are
    untouched. *)
Theorem getNews_unknown_user config oracle s userId page limit category w :
  DataStore.getUserById s userId = None →
  NewsController.getNews config oracle s userId page limit category w
  = ((createErrorResponse 404 "User not found"
        (ErrorText "User not found in the system") (now w), s), w).
Proof. intros Hnone. unfold NewsController.getNews. by rewrite Hnone. Qed.

(** X26: [getNews] for an existing user, a page number and a page size of
    at least 1 answers 200 with at most [limit] entries on the page and a
    total between 1 and [2 * limit], the length of the feed the news
    service returned; the users of the store are untouched. The feed is
    stored by id, a later article replacing an earlier one with the same
    id: a lookup by id gives the last article of the feed with that id,
    and what the store held before if the feed has none. So every article
    on the page is found under its id as the last article of the feed that
    carries its id, which is the article itself whenever no other article
    of the feed has the same id. Its read and favourite flags say whether
    its id is in the user's read and favourite sets. *)
Theorem getNews_page config oracle s userId page limit category w user :
  DataStore.getUserById s userId = Some user →
  1 ≤ page → 1 ≤ limit →
  let run :=
    NewsController.getNews config oracle s userId page limit category w in
  let feed :=
    (getPersonalizedNews config oracle (requested_preferences user category)
       "en" (limit * 2) w).1 in
  status run.1.1 = 200 ∧
  DataStore.users run.1.2 = DataStore.users s ∧
  (∀ id,
     DataStore.getArticle run.1.2 id
     = match last (filter (λ a, Article.id a = id) feed) with
       | Some a => Some a
       | None => DataStore.getArticle s id
       end) ∧
  ∃ news meta,
    payload run.1.1 = NewsPage news meta ∧
    Z.of_nat (length news) ≤ limit ∧
    pg_total meta = Z.of_nat (length feed) ∧
    1 ≤ pg_total meta ≤ 2 * limit ∧
    ∀ a isRead isFavorite, (a, isRead, isFavorite) ∈ news →
      a ∈ feed ∧
      (∃ a', DataStore.getArticle run.1.2 (Article.id a) = Some a' ∧
             last (filter (λ b, Article.id b = Article.id a) feed) = Some a' ∧
             a' ∈ feed ∧ Article.id a' = Article.id a) ∧
      ((∀ b, b ∈ feed → Article.id b = Article.id a → b = a) →
       DataStore.getArticle run.1.2 (Article.id a) = Some a) ∧
      isRead = User.isArticleRead user (Article.id a) ∧
      isFavorite = User.isArticleFavorite user (Article.id a).
Proof.
  intros Hu Hpage Hlimit run feed. unfold run, feed, NewsController.getNews.
  rewrite Hu. unfold bind, ret, Date_now.
  fold (requested_preferences user category).
  set (preferences := requested_preferences user category).
  pose proof (feed_length config oracle preferences "en" (limit * 2) w
                ltac:(lia)) as Hlen.
  pose proof (distinct_urls_positive _
    (merged_articles_nonempty config oracle preferences "en" (limit * 2) w))
    as Hpos.
  destruct (getPersonalizedNews config oracle preferences "en" (limit * 2) w)
    as [articles w1]. simpl in Hlen |- *.
  assert (Hne : (0 < length articles)%nat) by lia.
  rewrite bool_decide_eq_true_2 by done.
  split_and!; [done|apply storeArticles_users| |].
  { intros id. unfold DataStore.storeArticles. simpl.
    apply foldl_storeArticle_lookup. }
  eexists _, _. split_and!; [done| | | | |].
  - by apply page_slice_length_le.
  - simpl. by rewrite length_fmap.
  - simpl. rewrite length_fmap. lia.
  - simpl. rewrite length_fmap. lia.
  - intros a isRead isFavorite Hin.
    apply page_slice_subseteq in Hin; [|done..].
    apply list_elem_of_fmap in Hin as (a' & [= -> -> ->] & Ha').
    destruct (stored_article_lookup s articles a' Ha')
      as (b & Hget & Hlast & Hb & Hid).
    split_and!; [done| |intros Hunique|done..].
    + by exists b.
    + transitivity (Some b); [exact Hget|]. f_equal. by apply Hunique.
Qed.

End Controller.


(* ===================================================================== *)
(** ** The bearer token of a request *)

Section Token.

Lemma substring_all (t : string) : String.substring 0 (String.length t) t = t.
Proof. induction t as [|c t IH]; [done|]. simpl. by rewrite IH. Qed.

(** X27: [extractTokenFromHeader] returns a token exactly for the headers
    that consist of [Bearer ], with the blank, followed by the token: it
    gives the token back from such a header, also when the token is empty,
    and returns nothing for an absent header and for any other string. *)
Theorem extractTokenFromHeader_round_trip (header : option string)
    (token : string) :
  extractTokenFromHeader (Some ("Bearer " +:+ token)) = Some token ∧
  (extractTokenFromHeader header = Some token ↔
   header = Some ("Bearer " +:+ token)).
Proof.
  assert (Hforth : ∀ t, extractTokenFromHeader (Some ("Bearer " +:+ t))
                        = Some t).
  { intros t.
    cbv [String.append]. unfold extractTokenFromHeader. simpl.
    assert (String.prefix "" t = true) as -> by by destruct t.
    simpl. rewrite Nat.sub_0_r. by rewrite substring_all. }
  split; [apply Hforth|]. split; [|intros ->; apply Hforth].
  destruct header as [h|]; [|done]. unfold extractTokenFromHeader.
  destruct (negb (truthy (Some h))); simpl; [done|].
  destruct (String.prefix "Bearer " h) eqn:Hprefix; simpl; [|done].
  do 7 (destruct h as [|? h]; [done|]; simpl in Hprefix;
        match type of Hprefix with
        | (if ?d then _ else _) = true =>
            destruct d as [<-|]; [|done]
        end).
  simpl. rewrite Nat.sub_0_r, substring_all. by intros [= ->].
Qed.

End Token.


(* ===================================================================== *)
(** ** The further properties at concrete inputs *)

Lemma fresh_cache_complete t : cache_complete (fresh t).
Proof.
  intros key value expiry Hentry. simpl in Hentry.
  by rewrite lookup_empty in Hentry.
Qed.

Lemma small_store_ok : store_ok small_store.
Proof.
  split.
  - apply (bool_decide_unpack _). by vm_compute.
  - intros email u [= -> ->]%list_elem_of_singleton. simpl.
    split_and!; [done|..]; apply (bool_decide_unpack _); by vm_compute.
Qed.

Lemma getPersonalizedNews_length_run :
  Z.of_nat
    (length (getPersonalizedNews no_keys unreachable ["sports"] "en" 2
               (fresh 0)).1)
  = Z.min 2
      (Z.of_nat
         (distinct_urls
            (merged_articles no_keys unreachable ["sports"] "en" 2
               (fresh 0)).1)).
Proof.
  apply (getPersonalizedNews_length no_keys unreachable ["sports"] "en" 2
           (fresh 0)). lia.
Defined.

Lemma getPersonalizedNews_never_empty_run :
  (getPersonalizedNews both_keys flaky ["science"] "en" 1 (fresh 0)).1 ≠ [].
Proof.
  apply (getPersonalizedNews_never_empty both_keys flaky ["science"] "en" 1
           (fresh 0)). lia.
Defined.

Lemma fetch_served_from_cache_run :
  fetch_from newsapi_only unreachable NewsAPI ["sports"; "sports"] "en" 10 warm
  = ([bare "_a1" (Some "https://x.com/a");
      bare "_a1" (Some "https://x.com/a")], warm).
Proof.
  rewrite (fetch_served_from_cache newsapi_only unreachable NewsAPI
             ["sports"; "sports"] "en" 10 warm).
  - reflexivity.
  - reflexivity.
  - intros c Hc.
    exists [bare "_a1" (Some "https://x.com/a")], 9000.
    assert (c = "sports") as ->.
    { rewrite !elem_of_cons in Hc.
      destruct Hc as [?|[?|?%elem_of_nil]]; done. }
    split; [reflexivity|]. simpl. lia.
Defined.

Lemma feed_articles_have_title_and_url_run :
  Forall complete
    (getPersonalizedNews both_keys wire ["sports"] "en" 4 (fresh 0)).1.
Proof.
  apply (feed_articles_have_title_and_url both_keys wire ["sports"] "en" 4
           (fresh 0)). apply fresh_cache_complete.
Defined.

Lemma fetch_category_cached_run :
  ∃ expiry,
    cache (fetch_from newsapi_only flaky NewsAPI ["sports"] "en" 10
             (fresh 0)).2 !! "newsapi_sports_en_10"
    = Some ((fetch_from newsapi_only flaky NewsAPI ["sports"] "en" 10
               (fresh 0)).1, expiry).
Proof.
  destruct (fetch_category_cached newsapi_only flaky NewsAPI "sports" "en" 10
              (fresh 0)) as (expiry & Hentry & _).
  - simpl. lia.
  - by vm_compute.
  - by exists expiry.
Defined.

Lemma searchNews_without_providers_run :
  (searchNews no_keys wire "launch" "en" 20 (fresh 0)).1 = [].
Proof.
  rewrite (searchNews_without_providers no_keys wire "launch" "en" 20
             (fresh 0)); reflexivity.
Defined.

Lemma searchNews_newsapi_suffices_run :
  length (sent (searchNews both_keys wire "launch" "en" 1 (fresh 0)).2)
  = 1%nat.
Proof.
  destruct (searchNews_newsapi_suffices both_keys wire "launch" "en" 1
              (fresh 0) (fresh 0) [story "Launch" "https://x.com/a" 1000])
    as [-> _].
  - reflexivity.
  - reflexivity.
  - reflexivity.
  - by vm_compute.
  - reflexivity.
Defined.

Lemma searchNews_articles_have_title_and_url_run :
  Forall complete (searchNews both_keys wire "launch" "en" 20 (fresh 0)).1.
Proof.
  apply (searchNews_articles_have_title_and_url both_keys wire "launch" "en"
           20 (fresh 0)). apply fresh_cache_complete.
Defined.

Lemma marking_changes_one_user_only_run :
  (DataStore.markArticleAsRead small_store "_u1" "_a7" 9).1 = true.
Proof.
  apply (marking_changes_one_user_only small_store "_u1" "_a7" 9 reader).
  reflexivity.
Defined.

Lemma marking_twice_is_marking_once_run :
  User.readArticles
    <$> DataStore.getUserById
          (DataStore.markArticleAsRead
             (DataStore.markArticleAsRead small_store "_u1" "_a7" 9).2
             "_u1" "_a7" 10).2 "_u1"
  = User.readArticles
    <$> DataStore.getUserById
          (DataStore.markArticleAsRead small_store "_u1" "_a7" 9).2 "_u1".
Proof.
  apply (marking_twice_is_marking_once small_store "_u1" "_a7" 9 10 reader).
  reflexivity.
Defined.

Lemma removeFavorite_clears_the_mark_run :
  (DataStore.removeFavoriteArticle small_store "_u1" "_a1" 9).1 = true.
Proof.
  apply (removeFavorite_clears_the_mark small_store "_u1" "_a1" 9 10 reader).
  reflexivity.
Defined.

Lemma store_stays_consistent_run :
  store_ok (DataStore.markArticleAsRead small_store "_u1" "_a7" 9).2.
Proof.
  apply (store_stays_consistent small_store small_store_ok).
Defined.

Lemma marked_article_is_listed_run :
  bare "_a1" (Some "https://x.com/a")
  ∈ DataStore.getUserFavoriteArticles
      (DataStore.markArticleAsFavorite small_store "_u1" "_a1" 9).2 "_u1".
Proof.
  apply (marked_article_is_listed small_store "_u1" "_a1" 9 reader
           (bare "_a1" (Some "https://x.com/a"))); reflexivity.
Defined.

Lemma page_slice_lookup_run :
  page_slice ["a"; "b"; "c"; "d"; "e"] 2 2 !! 1%nat = Some "d".
Proof.
  destruct (page_slice_lookup ["a"; "b"; "c"; "d"; "e"] 2 2 1%nat)
    as [_ ->]; [lia..|reflexivity].
Defined.

Lemma pagination_flags_run :
  pg_hasNext (pagination_meta 2 2 (Z.of_nat (length ["a"; "b"; "c"; "d"; "e"])))
  = true.
Proof.
  apply (pagination_flags ["a"; "b"; "c"; "d"; "e"] 2 2); [lia..|].
  by vm_compute.
Defined.

Lemma marking_handlers_statuses_run :
  status (NewsController.markAsRead small_store [] "_u1" "_a404" 9).1 = 404.
Proof.
  destruct (marking_handlers_statuses NewsController.markAsRead small_store
              [] "_u1" "_a404" 9) as (_ & _ & _ & Hunknown & _).
  - apply elem_of_cons. by left.
  - apply Hunknown; reflexivity.
Defined.

Lemma listing_handlers_unknown_user_run :
  status (NewsController.getReadArticles small_store "_nobody" 1 20 9) = 200.
Proof.
  destruct (listing_handlers_unknown_user small_store "_nobody" 1 20 9)
    as [-> _]; reflexivity.
Defined.

Lemma getNews_unknown_user_run :
  sent (NewsController.getNews both_keys wire small_store "_nobody" 1 20 None
          (fresh 0)).2 = [].
Proof.
  rewrite (getNews_unknown_user both_keys wire small_store "_nobody" 1 20 None
             (fresh 0)); reflexivity.
Defined.

Lemma getNews_page_run :
  status (NewsController.getNews no_keys unreachable small_store "_u1" 1 20
            None (fresh 0)).1.1 = 200.
Proof.
  apply (getNews_page no_keys unreachable small_store "_u1" 1 20 None
           (fresh 0) reader); [reflexivity|lia..].
Defined.
